(** * AI Topics digest: the selection pipeline of [scripts/fetch_ai_news.py]

    A shallow embedding of the recency/dedup filter, the classifier boundary,
    the balanced selector, the archive store and the driver [main], with the
    properties the design document states about them.

    Conventions.
    - A Python [dict] article is the record [article]; the key ["category"]
      is absent until classification, hence [option string].
    - A raised exception is the [Raise] branch of [result].
    - Calendar dates travel as ["%Y-%m-%d"] strings, as in the script.  The
      library functions [datetime.strptime] and [strftime] are parameters of
      the development; [Calendar.strptime_ymd] and [Calendar.strftime_ymd]
      are executable instances used to run the model on concrete dates.
    - An instant ([datetime.now(JST)]) is the number of microseconds since
      local midnight of proleptic ordinal 0; a date is its ordinal. *)

From Stdlib Require Import ZArith Lia Ascii.
From Equations Require Import Equations.
From stdpp Require Import base tactics option list gmap strings sorting pretty.

Local Open Scope Z_scope.

(** ** Exceptions *)

Inductive exn : Type :=
  | ValueError        (* datetime.strptime on a malformed date *)
  | JSONDecodeError   (* json.load on malformed text *)
  | OSError.          (* a file that cannot be opened *)

Inductive result (A : Type) : Type :=
  | Ok (a : A)
  | Raise (e : exn).
Arguments Ok {A} a.
Arguments Raise {A} e.

Definition rbind {A B} (r : result A) (k : A → result B) : result B :=
  match r with
  | Ok a => k a
  | Raise e => Raise e
  end.

Notation "x ←! r ; k" := (rbind r (λ x, k))
  (at level 20, r at level 100, k at level 200, right associativity,
   format "x  ←!  r ;  '/' k").

Definition or_raise {A} (e : exn) (o : option A) : result A :=
  match o with
  | Some a => Ok a
  | None => Raise e
  end.

#[global] Instance exn_eq_dec : EqDecision exn.
Proof. solve_decision. Defined.

(** ** Articles and categories *)

Record article : Type := Article {
  title : string;
  url : string;
  source : string;
  lang : string;
  date : string;
  category : option string;
}.

#[global] Instance article_eq_dec : EqDecision article.
Proof. solve_decision. Defined.

Definition FALLBACK : string := "AI製品・ツール".

Definition CATEGORIES : list string :=
  [ "LLM・チャットAI";
    "画像・動画生成";
    "音声・音楽AI";
    "ロボティクス・自動運転";
    "AI規制・政策";
    "AI倫理・安全性";
    "研究・論文";
    "AI製品・ツール";
    "企業・資金調達";
    "医療・科学応用" ].

Definition KEEP_DAYS : Z := 7.

(** [a["category"] = c] *)
Definition set_category (c : string) (a : article) : article :=
  {| title := title a; url := url a; source := source a; lang := lang a;
     date := date a; category := Some c |}.

(** [a.get("category", "AI製品・ツール")] *)
Definition get_category (a : article) : string :=
  default FALLBACK (category a).

(** ** Time *)

Definition DAY_US : Z := 86400000000.

(** [timedelta(days=n)] *)
Definition timedelta_days (n : Z) : Z := n * DAY_US.

(** The calendar date (ordinal) of an instant. *)
Definition to_date (t : Z) : Z := t `div` DAY_US.

(** Midnight of a calendar date, as an instant. *)
Definition midnight (d : Z) : Z := d * DAY_US.

(** ** An executable calendar

    The proleptic Gregorian calendar of Python's [datetime]: [ymd2ord] and
    [ord2ymd] follow [_ymd2ord] and [_ord2ymd] of the standard library. *)

Module Calendar.

Definition is_leap (y : Z) : bool :=
  (y mod 4 =? 0) && (negb (y mod 100 =? 0) || (y mod 400 =? 0)).

Definition days_before_year (y : Z) : Z :=
  let y1 := y - 1 in y1 * 365 + y1 `div` 4 - y1 `div` 100 + y1 `div` 400.

Definition days_in_month (y m : Z) : Z :=
  if m =? 2 then (if is_leap y then 29 else 28)
  else if (m =? 4) || (m =? 6) || (m =? 9) || (m =? 11) then 30
  else 31.

Fixpoint days_before_month_aux (y : Z) (k : nat) : Z :=
  match k with
  | O => 0
  | S k' => days_before_month_aux y k' + days_in_month y (Z.of_nat k)
  end.

(** Days of year [y] before the first of month [m]. *)
Definition days_before_month (y m : Z) : Z :=
  days_before_month_aux y (Z.to_nat (m - 1)).

Definition ymd2ord (y m d : Z) : Z :=
  days_before_year y + days_before_month y m + d.

Definition DI400Y : Z := 146097.
Definition DI100Y : Z := 36524.
Definition DI4Y : Z := 1461.

Definition ord2ymd (n : Z) : Z * Z * Z :=
  let n := n - 1 in
  let n400 := n `div` DI400Y in let n := n `mod` DI400Y in
  let year := n400 * 400 + 1 in
  let n100 := n `div` DI100Y in let n := n `mod` DI100Y in
  let n4 := n `div` DI4Y in let n := n `mod` DI4Y in
  let n1 := n `div` 365 in let n := n `mod` 365 in
  let year := year + n100 * 100 + n4 * 4 + n1 in
  if (n1 =? 4) || (n100 =? 4) then (year - 1, 12, 31)
  else
    let month := Z.shiftr (n + 50) 5 in
    let preceding := days_before_month year month in
    if preceding >? n
    then (year, month - 1, n - (preceding - days_in_month year (month - 1)) + 1)
    else (year, month, n - preceding + 1).

Definition digit (k : Z) : ascii := ascii_of_nat (48 + Z.to_nat (k `mod` 10)).

Definition pad2 (k : Z) : string :=
  String (digit (k `div` 10)) (String (digit k) EmptyString).

Definition pad4 (k : Z) : string :=
  String (digit (k `div` 1000)) (String (digit (k `div` 100)) (pad2 k)).

(** [date.strftime("%Y-%m-%d")] *)
Definition strftime_ymd (ord : Z) : string :=
  let '(y, m, d) := ord2ymd ord in
  pad4 y +:+ "-" +:+ pad2 m +:+ "-" +:+ pad2 d.

Definition digit_val (c : ascii) : option Z :=
  let n := nat_of_ascii c in
  if (48 <=? n)%nat && (n <=? 57)%nat then Some (Z.of_nat (n - 48)) else None.

Fixpoint number_aux (acc : Z) (s : string) : option Z :=
  match s with
  | EmptyString => Some acc
  | String c s' => d ← digit_val c; number_aux (10 * acc + d) s'
  end.

Definition number (s : string) : option Z :=
  match s with
  | EmptyString => None
  | _ => number_aux 0 s
  end.

(** Splits at the first ['-']. *)
Fixpoint split_dash (s : string) : option (string * string) :=
  match s with
  | EmptyString => None
  | String c s' =>
      if Ascii.eqb c "-"%char then Some (EmptyString, s')
      else '(a, b) ← split_dash s'; Some (String c a, b)
  end.

(** [datetime.strptime(s, "%Y-%m-%d")]: four digits, one or two digits,
    one or two digits, and a date that exists; [None] is [ValueError]. *)
Definition strptime_ymd (s : string) : option Z :=
  '(ys, rest) ← split_dash s;
  '(ms, ds) ← split_dash rest;
  y ← number ys; m ← number ms; d ← number ds;
  if (String.length ys =? 4)%nat
     && (String.length ms <=? 2)%nat && (String.length ds <=? 2)%nat
     && (1 <=? y) && (1 <=? m) && (m <=? 12)
     && (1 <=? d) && (d <=? days_in_month y m)
  then Some (ymd2ord y m d) else None.

End Calendar.

(** ** JSON values, as [json.loads] returns them *)

#[local] Unset Elimination Schemes.
Inductive json : Type :=
  | JNull
  | JBool (b : bool)
  | JNumber (literal : string)
  | JString (s : string)
  | JArray (items : list json)
  | JObject (members : list (string * json)).
#[local] Set Elimination Schemes.

(** ** String helpers *)

(** Everything after the first ['['] of [s]. *)
Fixpoint after_open (s : string) : option string :=
  match s with
  | EmptyString => None
  | String c s' => if Ascii.eqb c "["%char then Some s' else after_open s'
  end.

(** The longest prefix of [s] that ends in [']']. *)
Fixpoint upto_last_close (s : string) : option string :=
  match s with
  | EmptyString => None
  | String c s' =>
      match upto_last_close s' with
      | Some r => Some (String c r)
      | None => if Ascii.eqb c "]"%char then Some (String c EmptyString) else None
      end
  end.

(** [re.search(r'\[.*\]', text, re.DOTALL)] followed by [match.group()]:
    greedy, so from the first ['['] to the last [']'] after it. *)
Definition re_search_array (text : string) : option string :=
  rest ← after_open text;
  body ← upto_last_close rest;
  Some (String "["%char body).

Definition JSON_SUFFIX : string := ".json".

(** Whether a directory entry matches the glob ["*.json"]. *)
Definition is_json (name : string) : bool :=
  let n := String.length name in
  (5 <=? n)%nat && String.eqb (String.substring (n - 5) 5 name) JSON_SUFFIX.

(** [path.stem] of a name matching ["*.json"]; the name [".json"] itself
    has no suffix for [pathlib]. *)
Definition stem (name : string) : string :=
  if String.eqb name JSON_SUFFIX then name
  else String.substring 0 (String.length name - 5) name.

(** ** The classifier boundary *)

Inductive api_response : Type :=
  | ApiError                   (* the request, or reading [content[0].text], raised *)
  | ApiText (text : string).   (* [response.content[0].text] *)

Definition batch_size : nat := 20.

(** [range(0, n, step)] *)
Definition range_step (n step : nat) : list nat :=
  (λ k, k * step)%nat <$> seq 0 ((n + step - 1) `div` step)%nat.

(** The label given to the article at position [idx] of a batch:
    [cats[idx]] when [idx < len(cats)] and [cats[idx] in CATEGORIES]. *)
Definition label_at (cats : list json) (idx : nat) : string :=
  match cats !! idx with
  | Some (JString c) => if decide (c ∈ CATEGORIES) then c else FALLBACK
  | _ => FALLBACK
  end.

(** ** Round-robin state of the balanced selector *)

Record rr_state : Type := RRState {
  selected : list article;
  idx_per_cat : gmap string nat;
  added : bool;
}.

(** One iteration of [for a in articles] in the grouping loop; the pair is
    the dict [by_cat] and its key order. *)
Definition group_add (acc : gmap string (list article) * list string)
    (a : article) : gmap string (list article) * list string :=
  let cat := get_category a in
  match acc.1 !! cat with
  | None => (<[cat := [a]]> acc.1, acc.2 ++ [cat])
  | Some g => (<[cat := g ++ [a]]> acc.1, acc.2)
  end.

Definition group_by_category (articles : list article) :
    gmap string (list article) * list string :=
  foldl group_add (∅, []) articles.

(** The distinct elements of a list in order of first occurrence, the key
    order of a [dict] filled from it. *)
Fixpoint first_seen (seen : gset string) (cats : list string) : list string :=
  match cats with
  | [] => []
  | c :: rest =>
      if decide (c ∈ seen) then first_seen seen rest
      else c :: first_seen ({[c]} ∪ seen) rest
  end.

(** One iteration of [for cat in cat_keys].  Both dicts have exactly the
    keys [cat_keys], so neither subscript raises; the defaults are never
    used. *)
Definition rr_visit (by_cat : gmap string (list article)) (max_count : Z)
    (st : rr_state) (cat : string) : rr_state :=
  let i := default 0%nat (idx_per_cat st !! cat) in
  match default [] (by_cat !! cat) !! i with
  | Some a =>
      if decide (Z.of_nat (length (selected st)) < max_count)
      then RRState (selected st ++ [a]) (<[cat := S i]> (idx_per_cat st)) true
      else st
  | None => st
  end.

(** The body of the [while] loop: [added = False], then the sweep. *)
Definition rr_sweep (by_cat : gmap string (list article)) (cat_keys : list string)
    (max_count : Z) (sel : list article) (idx : gmap string nat) : rr_state :=
  foldl (rr_visit by_cat max_count) (RRState sel idx false) cat_keys.

Lemma rr_visit_length by_cat max_count st cat :
  (length (selected st) ≤ length (selected (rr_visit by_cat max_count st cat)))%nat
  ∧ (added (rr_visit by_cat max_count st cat) = true →
     added st = true
     ∨ (length (selected st) < length (selected (rr_visit by_cat max_count st cat)))%nat).
Proof.
  unfold rr_visit.
  destruct (default [] (by_cat !! cat) !! default 0%nat (idx_per_cat st !! cat));
    [case_decide|]; simpl; rewrite ?length_app; simpl; split; auto; lia.
Qed.

Lemma rr_fold_length by_cat max_count cat_keys st :
  let st' := foldl (rr_visit by_cat max_count) st cat_keys in
  (length (selected st) ≤ length (selected st'))%nat
  ∧ (added st' = true →
     added st = true ∨ (length (selected st) < length (selected st'))%nat).
Proof.
  revert st. induction cat_keys as [|cat cat_keys IH]; intros st; simpl.
  - split; auto.
  - destruct (IH (rr_visit by_cat max_count st cat)) as [IH1 IH2].
    destruct (rr_visit_length by_cat max_count st cat) as [V1 V2].
    split; [lia|]. intros Ha. destruct (IH2 Ha) as [Hb|Hb]; [|right; lia].
    destruct (V2 Hb); [by left|right; lia].
Qed.

Lemma rr_sweep_progress by_cat cat_keys max_count sel idx :
  added (rr_sweep by_cat cat_keys max_count sel idx) = true →
  (length sel < length (selected (rr_sweep by_cat cat_keys max_count sel idx)))%nat.
Proof.
  intros Ha. unfold rr_sweep in *.
  destruct (rr_fold_length by_cat max_count cat_keys (RRState sel idx false)) as [_ H].
  destruct (H Ha) as [?|?]; [done|done].
Qed.

(** The [while len(selected) < max_count] loop, with its [break]. *)
Equations? rr_loop (by_cat : gmap string (list article)) (cat_keys : list string)
    (max_count : Z) (sel : list article) (idx : gmap string nat) : list article
    by wf (Z.to_nat (max_count - Z.of_nat (length sel))) lt :=
  rr_loop by_cat cat_keys max_count sel idx
    with decide (Z.of_nat (length sel) < max_count) := {
    | right _ => sel
    | left Hlt with Equations.Prop.Logic.inspect (added (rr_sweep by_cat cat_keys max_count sel idx)) := {
        | exist _ true Ha =>
            rr_loop by_cat cat_keys max_count
              (selected (rr_sweep by_cat cat_keys max_count sel idx))
              (idx_per_cat (rr_sweep by_cat cat_keys max_count sel idx))
        | exist _ false _ => selected (rr_sweep by_cat cat_keys max_count sel idx) } }.
Proof.
  apply rr_sweep_progress in Ha. lia.
Qed.

(** [select_top_articles(articles, max_count)] *)
Definition select_top_articles (articles : list article) (max_count : Z) :
    list article :=
  if decide (Z.of_nat (length articles) ≤ max_count) then articles
  else
    let '(by_cat, cat_keys) := group_by_category articles in
    rr_loop by_cat cat_keys max_count [] ((λ _, 0%nat) <$> by_cat).

(** ** The run

    The section fixes what the script reads from its environment: the
    standard-library functions, the feeds, the classifier service and the
    clock.  [now] is [datetime.now(JST)]; the module constant [TODAY] is its
    date, as the design document's "fixed today". *)

Record source_desc : Type := Source {
  src_name : string;
  src_url : string;
  src_lang : string;
}.

(** The files the script owns. *)
Record world : Type := World {
  sources_file : result (list source_desc);  (* [json.load] of data/sources.json *)
  archive : gmap string string;              (* data/articles: name to text *)
  output : option string;                    (* ai-topics/index.html *)
  api_calls : list (list article);           (* batches sent to the classifier *)
}.

Section Pipeline.

Variable strptime : string → option Z.    (* datetime.strptime(_, "%Y-%m-%d"), as an ordinal *)
Variable strftime : Z → string.           (* date.strftime("%Y-%m-%d") *)
Variable json_loads : string → option json.
Variable json_dumps : list article → string.
Variable fetch_rss : source_desc → list article.
Variable api_key : option string.         (* os.environ.get("ANTHROPIC_API_KEY") *)
Variable messages_create : nat → list article → api_response.  (* by batch offset *)
Variable generate_html : gmap string json → string → string.
Variable stamp : Z → string.              (* strftime("%Y年%m月%d日 %H:%M JST") *)
Variable now : Z.

Definition TODAY : string := strftime (to_date now).

(** *** Recency and dedup filter ([collect_articles], after fetching) *)

(** [[a for a in all_articles if a["date"] in (TODAY, yesterday)]] *)
Definition primary_window (all_articles : list article) : list article :=
  let yesterday := strftime (to_date (now - timedelta_days 1)) in
  filter (λ a, date a ∈ [TODAY; yesterday]) all_articles.

(** [[a for a in all_articles if strptime(a["date"]) >= cutoff]] *)
Fixpoint since (cutoff : Z) (all_articles : list article) : result (list article) :=
  match all_articles with
  | [] => Ok []
  | a :: rest =>
      d ←! or_raise ValueError (strptime (date a));
      tail ←! since cutoff rest;
      Ok (if decide (cutoff ≤ d) then a :: tail else tail)
  end.

(** The window stage: the primary window, widened when it holds fewer
    than five articles. *)
Definition recent_window (all_articles : list article) : result (list article) :=
  let recent := primary_window all_articles in
  if decide (length recent < 5)%nat then
    let three_days_ago := strftime (to_date (now - timedelta_days 3)) in
    cutoff ←! or_raise ValueError (strptime three_days_ago);
    since cutoff all_articles
  else Ok recent.

(** The [for a in recent] loop: first occurrence of each URL. *)
Fixpoint dedup_urls (seen_urls : gset string) (recent : list article) : list article :=
  match recent with
  | [] => []
  | a :: rest =>
      if decide (url a ∈ seen_urls) then dedup_urls seen_urls rest
      else a :: dedup_urls ({[url a]} ∪ seen_urls) rest
  end.

Definition recency_dedup_filter (all_articles : list article) : result (list article) :=
  recent ←! recent_window all_articles;
  Ok (dedup_urls ∅ recent).

Definition collect_articles (sources : list source_desc) : result (list article) :=
  recency_dedup_filter (sources ≫= fetch_rss).

(** *** Classification *)

Definition fallback_all (batch : list article) : list article :=
  set_category FALLBACK <$> batch.

(** The [try] block for one batch, given what the request produced.  A
    value that is not an array cannot come out of text that starts with
    ['[']; the script would fall back for the whole batch on it as well. *)
Definition classify_batch (response : api_response) (batch : list article) :
    list article :=
  match response with
  | ApiError => fallback_all batch
  | ApiText text =>
      match re_search_array text with
      | None => fallback_all batch
      | Some found =>
          match json_loads found with
          | Some (JArray cats) =>
              imap (λ idx a, set_category (label_at cats idx) a) batch
          | _ => fallback_all batch
          end
      end
  end.

(** [articles[i:i + batch_size]] *)
Definition batch_at (i : nat) (articles : list article) : list article :=
  take batch_size (drop i articles).

(** One iteration of [for i in range(0, len(articles), batch_size)]: the
    articles of the slice are updated in place. *)
Definition classify_step (acc : list article * list (list article)) (i : nat) :
    list article * list (list article) :=
  let batch := batch_at i acc.1 in
  (take i acc.1 ++ classify_batch (messages_create i batch) batch
     ++ drop (i + batch_size) acc.1,
   acc.2 ++ [batch]).

(** Returns the articles and the batches sent to the service. *)
Definition classify_articles (articles : list article) :
    list article * list (list article) :=
  match api_key with
  | None | Some "" => (fallback_all articles, [])
  | Some _ =>
      foldl classify_step (articles, []) (range_step (length articles) batch_size)
  end.

(** *** Archive store *)

Definition save_articles (articles : list article) (date_str : string)
    (dir : gmap string string) : gmap string string :=
  <[date_str +:+ JSON_SUFFIX := json_dumps articles]> dir.

(** [sorted(ARTICLES_DIR.glob("*.json"))] *)
Definition glob_json (dir : gmap string string) : list string :=
  merge_sort String.le (filter (λ name, is_json name) (elements (dom dir))).

(** The [for path in sorted(...)] loop of [load_recent_articles]. *)
Fixpoint load_loop (cutoff : Z) (paths : list string) (dir : gmap string string)
    (all_articles : gmap string json) : gmap string string * result (gmap string json) :=
  match paths with
  | [] => (dir, Ok all_articles)
  | path :: rest =>
      let date_str := stem path in
      match strptime date_str with
      | None => load_loop cutoff rest dir all_articles
      | Some d =>
          if decide (midnight d < cutoff) then
            load_loop cutoff rest (delete path dir) all_articles
          else
            match dir !! path with
            | None => (dir, Raise OSError)
            | Some text =>
                match json_loads text with
                | None => (dir, Raise JSONDecodeError)
                | Some articles =>
                    load_loop cutoff rest dir (<[date_str := articles]> all_articles)
                end
            end
      end
  end.

(** Returns the directory as the call leaves it, and the mapping or the
    exception. *)
Definition load_recent_articles (dir : gmap string string) :
    gmap string string * result (gmap string json) :=
  let cutoff := now - timedelta_days KEEP_DAYS in
  load_loop cutoff (glob_json dir) dir ∅.

(** *** The driver *)

(** Steps 3 to 5 of [main]: classify, select, save, reload, render. *)
Definition publish (w : world) (articles : list article) : world * result () :=
  let '(articles, calls) := classify_articles articles in
  let w1 := World (sources_file w) (archive w) (output w) (api_calls w ++ calls) in
  let articles := select_top_articles articles 15 in
  let w2 := World (sources_file w1) (save_articles articles TODAY (archive w1))
              (output w1) (api_calls w1) in
  let '(dir, loaded) := load_recent_articles (archive w2) in
  let w3 := World (sources_file w2) dir (output w2) (api_calls w2) in
  match loaded with
  | Raise e => (w3, Raise e)
  | Ok all_articles =>
      (World (sources_file w3) (archive w3)
         (Some (generate_html all_articles (stamp now))) (api_calls w3),
       Ok ())
  end.

Definition main (w : world) : world * result () :=
  match sources_file w with
  | Raise e => (w, Raise e)
  | Ok sources =>
      match collect_articles sources with
      | Raise e => (w, Raise e)
      | Ok articles =>
          if decide (articles = []) then (w, Ok ())   (* [if not articles: return] *)
          else publish w articles
      end
  end.

End Pipeline.

(** ** Feed fetcher ([fetch_rss])

    [http_get] stands for the request and the parse of its body: the
    entries of the feed, or [None] when any of it raises.  The two
    timestamps of an entry are the dates of its [struct_time]s. *)

Record feed_entry : Type := FeedEntry {
  published_parsed : option Z;
  updated_parsed : option Z;
  entry_title : option string;   (* [None]: the entry has no such key *)
  entry_link : option string;
}.

Section Fetcher.

Variable strftime : Z → string.      (* time.strftime("%Y-%m-%d", _) *)
Variable strip : string → string.    (* str.strip *)
Variable http_get : source_desc → option (list feed_entry).
Variable now : Z.

(** The date stamped on an entry: published, else updated, else [TODAY]. *)
Definition entry_date (e : feed_entry) : string :=
  let published :=
    match published_parsed e with
    | Some t => Some (strftime t)
    | None =>
        match updated_parsed e with
        | Some t => Some (strftime t)
        | None => None
        end
    end in
  match published with
  | Some s => if decide (s = "") then TODAY strftime now else s   (* [if not published] *)
  | None => TODAY strftime now
  end.

(** One iteration of [for entry in feed.entries[:30]]; [None] is
    [continue]. *)
Definition entry_article (src : source_desc) (e : feed_entry) : option article :=
  let title := strip (default "" (entry_title e)) in
  let link := strip (default "" (entry_link e)) in
  if decide (title = "" ∨ link = "") then None
  else Some (Article title link (src_name src) (src_lang src) (entry_date e) None).

Definition fetch_rss (src : source_desc) : list article :=
  match http_get src with
  | None => []
  | Some entries => omap (entry_article src) (take 30 entries)
  end.

End Fetcher.

(** ** Sample data

    A run on 2 March 2024, 09:00 JST (ordinal 738947), with the executable
    calendar. *)

Module Samples.

Definition now0 : Z := midnight 738947 + 9 * 3600000000.

Definition mk (u d : string) (c : option string) : article :=
  Article ("title of " +:+ u) u "feed" "en" d c.

(** Five articles of the primary window under three URLs, and an older one. *)
Definition feed_with_duplicates : list article :=
  [ mk "u1" "2024-03-02" None; mk "u2" "2024-03-02" None;
    mk "u1" "2024-03-01" None; mk "u2" "2024-03-01" None;
    mk "u3" "2024-03-02" None; mk "u4" "2024-02-28" None ].

Definition feed_with_duplicates_filtered : list article :=
  [ mk "u1" "2024-03-02" None; mk "u2" "2024-03-02" None;
    mk "u3" "2024-03-02" None ].

(** Two articles of the primary window, one dated three days ago, one
    dated four days ago. *)
Definition sparse_feed : list article :=
  [ mk "v1" "2024-03-02" None; mk "v2" "2024-03-01" None;
    mk "v3" "2024-02-28" None; mk "v4" "2024-02-27" None ].

(** Three articles dated today and two dated yesterday, with older ones. *)
Definition full_feed : list article :=
  [ mk "w1" "2024-03-02" None; mk "w0" "2024-02-28" None;
    mk "w2" "2024-03-01" None; mk "w3" "2024-03-02" None;
    mk "w4" "2024-03-01" None; mk "w5" "2024-03-02" None;
    mk "w6" "2024-02-27" None ].

(** [json.loads] on arrays of strings without escapes; [None] on
    anything else. *)
Inductive parse_mode : Type :=
  | PStart | PElem (first : bool) | PString (rev_chars : string) | PAfter | PDone.

Definition QUOTE : ascii := "034"%char.

Fixpoint parse_array (m : parse_mode) (acc : list json) (s : string) : option json :=
  match s with
  | EmptyString =>
      match m with PDone => Some (JArray (reverse acc)) | _ => None end
  | String c rest =>
      match m with
      | PStart =>
          if Ascii.eqb c "["%char then parse_array (PElem true) acc rest else None
      | PElem first =>
          if Ascii.eqb c " "%char then parse_array m acc rest
          else if Ascii.eqb c QUOTE then parse_array (PString "") acc rest
          else if Ascii.eqb c "]"%char && first then parse_array PDone acc rest
          else None
      | PString r =>
          if Ascii.eqb c QUOTE
          then parse_array PAfter (JString (String.rev r) :: acc) rest
          else if Ascii.eqb c "092"%char then None
          else parse_array (PString (String c r)) acc rest
      | PAfter =>
          if Ascii.eqb c " "%char then parse_array m acc rest
          else if Ascii.eqb c ","%char then parse_array (PElem false) acc rest
          else if Ascii.eqb c "]"%char then parse_array PDone acc rest
          else None
      | PDone => None
      end
  end.

Definition json_loads (s : string) : option json := parse_array PStart [] s.

Definition quoted (s : string) : string :=
  String QUOTE s +:+ String QUOTE "".

(** Twenty-one articles: a full batch and a batch of one. *)
Definition twenty_one : list article :=
  (λ k, mk ("n" +:+ pretty k) "2024-03-02" None) <$> seq 0 21.

(** A service that answers the first batch with prose and the second with
    a label of the list, a label outside it, and nothing for the rest. *)
Definition service (i : nat) (batch : list article) : api_response :=
  if decide (i = 0%nat) then ApiText "Sorry, I cannot classify these."
  else ApiText ("Here you go: [" +:+ quoted "研究・論文" +:+ ", "
                +:+ quoted "Sports" +:+ "] done").

(** An archive with files dated today, six days ago and eight days ago,
    and a stray file. *)
Definition archive0 : gmap string string :=
  <["2024-03-02.json" := "[" +:+ quoted "today" +:+ "]"]>
    (<["2024-02-25.json" := "[" +:+ quoted "six days ago" +:+ "]"]>
       {["2024-02-23.json" := "[" +:+ quoted "eight days ago" +:+ "]"]}).

(** The same with a truncated file dated yesterday and a stray file. *)
Definition archive_corrupt : gmap string string :=
  <["2024-03-01.json" := "[" +:+ quoted "yester"]>
    (<["notes.json" := "[]"]> archive0).

(** A run whose only feed carries two articles of last January. *)
Definition stale_feed (s : source_desc) : list article :=
  [ mk "old1" "2024-01-10" None; mk "old2" "2024-01-11" None ].

Definition world0 : world :=
  World (Ok [Source "feed" "https://example.org/rss" "en"]) archive0
    (Some "<html>digest of 1 March</html>") [].

(** [str.strip] for the ASCII space. *)
Fixpoint lstrip (s : string) : string :=
  match s with
  | String c rest => if Ascii.eqb c " "%char then lstrip rest else s
  | EmptyString => s
  end.

Definition strip (s : string) : string :=
  String.rev (lstrip (String.rev (lstrip s))).

(** A feed of four entries: dated yesterday; undated; without a link;
    with a blank title. *)
Definition feed (s : source_desc) : option (list feed_entry) :=
  if decide (src_name s = "down") then None
  else Some [ FeedEntry (Some 738946) None (Some "  First  ") (Some "https://a/1");
              FeedEntry None None (Some "Second") (Some "https://a/2 ");
              FeedEntry (Some 738946) None (Some "Third") None;
              FeedEntry None (Some 738945) (Some "   ") (Some "https://a/4") ].

Definition registry : list source_desc :=
  [ Source "Feed A" "https://a/rss" "en"; Source "down" "https://b/rss" "ja" ].

(** Two articles of the primary window and one dated next week. *)
Definition feed_with_future : list article :=
  [ mk "f1" "2024-03-02" None; mk "f2" "2024-03-09" None;
    mk "f3" "2024-03-01" None ].

Definition cat_a : string := "研究・論文".
Definition cat_b : string := "AI規制・政策".
Definition cat_c : string := "音声・音楽AI".

Definition art (u c : string) : article := mk u "2024-03-02" (Some c).

(** Ten articles of a first category, two of a second, one of a third,
    interleaved, the categories first seen in that order. *)
Definition thirteen : list article :=
  [ art "a1" cat_a; art "a2" cat_a; art "b1" cat_b; art "a3" cat_a;
    art "c1" cat_c; art "a4" cat_a; art "b2" cat_b; art "a5" cat_a;
    art "a6" cat_a; art "a7" cat_a; art "a8" cat_a; art "a9" cat_a;
    art "a10" cat_a ].

End Samples.

(** * Properties *)

(** ** The executable calendar and the string helpers on examples *)

Example strftime_epoch : Calendar.strftime_ymd 719163 = "1970-01-01".
Proof. reflexivity. Qed.

Example strptime_leap_day : Calendar.strptime_ymd "2024-02-29" = Some 738945.
Proof. reflexivity. Qed.

Example strptime_no_such_day : Calendar.strptime_ymd "2023-02-29" = None.
Proof. reflexivity. Qed.

Example strptime_stray_name : Calendar.strptime_ymd "notes" = None.
Proof. reflexivity. Qed.

Example sample_clock :
  Calendar.strftime_ymd (to_date Samples.now0) = "2024-03-02"
  ∧ Calendar.strftime_ymd (to_date (Samples.now0 - timedelta_days 3)) = "2024-02-28".
Proof. split; reflexivity. Qed.

Example re_search_array_greedy :
  re_search_array "labels: [a] and [b] follow" = Some "[a] and [b]"
  ∧ re_search_array "no closing [ bracket" = None
  ∧ re_search_array "] before [" = None.
Proof. repeat split; reflexivity. Qed.

Example stem_of_names :
  stem "2024-03-02.json" = "2024-03-02" ∧ stem ".json" = ".json"
  ∧ is_json "2024-03-02.json" = true ∧ is_json "index.html" = false.
Proof. repeat split; reflexivity. Qed.

(** ** Recency and dedup filter *)

Lemma to_date_sub (t k : Z) : to_date (t - timedelta_days k) = to_date t - k.
Proof.
  unfold to_date, timedelta_days.
  replace (t - k * DAY_US) with (t + (- k) * DAY_US) by lia.
  rewrite Z.div_add by done. lia.
Qed.

Lemma filter_sublist_mono {A} (P : A → Prop) `{!∀ x, Decision (P x)} (l1 l2 : list A) :
  l1 `sublist_of` l2 → filter P l1 `sublist_of` filter P l2.
Proof.
  induction 1 as [|x l1 l2 _ IH|x l1 l2 _ IH]; [done| |].
  - destruct (decide (P x)).
    + rewrite !filter_cons_True by done. by constructor.
    + by rewrite !filter_cons_False by done.
  - destruct (decide (P x)).
    + rewrite (filter_cons_True _ x l2) by done. by constructor.
    + by rewrite (filter_cons_False _ x l2) by done.
Qed.

Section FilterProperties.

Variable strptime : string → option Z.
Variable strftime : Z → string.
Variable now : Z.

Abbreviation today := (to_date now).
Abbreviation primary_window := (primary_window strftime now).
Abbreviation since := (since strptime).
Abbreviation recent_window := (recent_window strptime strftime now).
Abbreviation recency_dedup_filter := (recency_dedup_filter strptime strftime now).

(** The article's date parses to a day not before [cutoff]. *)
Definition dated_since (cutoff : Z) (a : article) : bool :=
  match strptime (date a) with
  | Some d => bool_decide (cutoff ≤ d)
  | None => false
  end.

Lemma primary_window_spec all_articles :
  primary_window all_articles
  = filter (λ a, date a = strftime today ∨ date a = strftime (today - 1)) all_articles.
Proof.
  unfold primary_window, TODAY. rewrite to_date_sub.
  apply list_filter_iff. intros a.
  rewrite elem_of_cons, list_elem_of_singleton. done.
Qed.

Lemma primary_window_sublist l1 l2 :
  l1 `sublist_of` l2 → primary_window l1 `sublist_of` primary_window l2.
Proof. intros H. unfold primary_window. by apply filter_sublist_mono. Qed.

Lemma since_parsed cutoff l :
  (∀ a, a ∈ l → is_Some (strptime (date a))) →
  since cutoff l = Ok (filter (λ a, dated_since cutoff a) l).
Proof.
  induction l as [|a l IH]; intros H; [done|]. simpl.
  destruct (H a) as [d Hd]; [left|]. rewrite Hd. simpl.
  rewrite IH by (intros b Hb; apply H; by right). simpl.
  case_decide.
  - rewrite filter_cons_True; [done|].
    unfold dated_since. rewrite Hd. by apply bool_decide_pack.
  - rewrite filter_cons_False; [done|].
    unfold dated_since. rewrite Hd. by intros ?%bool_decide_unpack.
Qed.

Lemma since_Ok_inv cutoff l r :
  since cutoff l = Ok r →
  r `sublist_of` l ∧ ∀ a, a ∈ r → dated_since cutoff a = true.
Proof.
  revert r. induction l as [|a l IH]; intros r; simpl.
  - intros [= <-]. split; [done|]. intros a Ha. by apply elem_of_nil in Ha.
  - destruct (strptime (date a)) as [d|] eqn:Hd; simpl; [|done].
    destruct (since cutoff l) as [tail|] eqn:Ht; simpl; [|done].
    destruct (IH tail eq_refl) as [Hsub Hall].
    case_decide; intros [= <-].
    + split; [by constructor|]. intros b [->|Hb]%elem_of_cons; [|by apply Hall].
      unfold dated_since. rewrite Hd. by apply bool_decide_eq_true_2.
    + split; [by constructor|]. done.
Qed.

Lemma since_fixed cutoff l :
  (∀ a, a ∈ l → dated_since cutoff a = true) → since cutoff l = Ok l.
Proof.
  induction l as [|a l IH]; intros H; [done|]. simpl.
  pose proof (H a (list_elem_of_here _ _)) as Ha. unfold dated_since in Ha.
  destruct (strptime (date a)) as [d|]; [|done]. simpl.
  rewrite IH by (intros b Hb; apply H; by right). simpl.
  apply bool_decide_eq_true_1 in Ha. by rewrite decide_True.
Qed.

Lemma dedup_urls_sublist seen l : dedup_urls seen l `sublist_of` l.
Proof.
  revert seen. induction l as [|a l IH]; intros seen; simpl; [done|].
  case_decide; by constructor.
Qed.

Lemma dedup_urls_idemp seen l :
  dedup_urls seen (dedup_urls seen l) = dedup_urls seen l.
Proof.
  revert seen. induction l as [|a l IH]; intros seen; simpl; [done|].
  case_decide; [done|]. simpl. rewrite decide_False by done.
  by rewrite IH.
Qed.

(** Every URL that is not yet seen survives the dedup loop. *)
Lemma dedup_urls_complete_seen seen l a :
  a ∈ l → url a ∉ seen → ∃ b, b ∈ dedup_urls seen l ∧ url b = url a.
Proof.
  revert seen. induction l as [|x l IH]; intros seen Ha Hseen.
  - by apply elem_of_nil in Ha.
  - simpl. apply elem_of_cons in Ha as [->|Ha].
    + rewrite decide_False by done. exists x. split; [left|done].
    + case_decide as Hx; [by apply IH|].
      destruct (decide (url a = url x)) as [Heq|Hne].
      * exists x. split; [left|done].
      * destruct (IH ({[url x]} ∪ seen) Ha) as (b & Hb & Hurl).
        { intros [?%elem_of_singleton|?]%elem_of_union; done. }
        exists b. split; [by right|done].
Qed.

Lemma dedup_urls_complete l a :
  a ∈ l → ∃ b, b ∈ dedup_urls ∅ l ∧ url b = url a.
Proof. intros Ha. apply dedup_urls_complete_seen; [done|]. apply not_elem_of_empty. Qed.

Lemma list_filter_True_all {A} (P : A → Prop) `{!∀ x, Decision (P x)} (l : list A) :
  (∀ x, x ∈ l → P x) → filter P l = l.
Proof.
  induction l as [|x l IH]; intros Hall; [done|].
  rewrite filter_cons_True by (apply Hall; left).
  f_equal. apply IH. intros y Hy. apply Hall. by right.
Qed.

(** No URL occurs twice in the output of the dedup loop. *)
Lemma dedup_urls_NoDup seen l :
  NoDup (url <$> dedup_urls seen l)
  ∧ ∀ a, a ∈ dedup_urls seen l → url a ∉ seen.
Proof.
  revert seen. induction l as [|a l IH]; intros seen; simpl.
  - split; [constructor|]. intros a Ha. by apply elem_of_nil in Ha.
  - case_decide as Hin; [done|].
    destruct (IH ({[url a]} ∪ seen)) as [Hnd Hout]. split.
    + simpl. constructor; [|done].
      intros (b & Hb & Hbin)%list_elem_of_fmap. apply Hout in Hbin.
      apply Hbin, elem_of_union_l, elem_of_singleton. done.
    + intros b [->|Hb]%elem_of_cons; [done|]. apply Hout in Hb.
      intros ?. by apply Hb, elem_of_union_r.
Qed.

Lemma recent_window_no_escalation all_articles :
  (5 ≤ length (primary_window all_articles))%nat →
  recent_window all_articles = Ok (primary_window all_articles).
Proof. intros H. unfold recent_window. rewrite decide_False by lia. done. Qed.

Lemma recent_window_escalation all_articles cutoff :
  (length (primary_window all_articles) < 5)%nat →
  strptime (strftime (today - 3)) = Some cutoff →
  recent_window all_articles = since cutoff all_articles.
Proof.
  intros H Hc. unfold recent_window. rewrite decide_True by done.
  rewrite to_date_sub, Hc. done.
Qed.

(** C2. If at least five articles are dated today or yesterday, the window
    stage keeps exactly those and the filter returns them deduplicated.  If
    fewer are, and every date is well formed, the window stage keeps exactly
    the articles dated [today - 3] or later: one dated [today - 3] is kept,
    one dated [today - 4] is not, neither by the window nor by the filter. *)
Theorem window_escalation
    (Hclock : strptime (strftime (today - 3)) = Some (today - 3))
    (all_articles : list article) :
  let primary :=
    filter (λ a, date a = strftime today ∨ date a = strftime (today - 1)) all_articles in
  ((5 ≤ length primary)%nat →
     recent_window all_articles = Ok primary
     ∧ recency_dedup_filter all_articles = Ok (dedup_urls ∅ primary))
  ∧ ((length primary < 5)%nat →
     (∀ a, a ∈ all_articles → is_Some (strptime (date a))) →
     let widened := filter (λ a, dated_since (today - 3) a) all_articles in
     recent_window all_articles = Ok widened
     ∧ recency_dedup_filter all_articles = Ok (dedup_urls ∅ widened)
     ∧ ∀ a, a ∈ all_articles →
         (strptime (date a) = Some (today - 3) →
            a ∈ widened ∧ (∃ b, b ∈ dedup_urls ∅ widened ∧ url b = url a))
         ∧ (strptime (date a) = Some (today - 4) →
            (a ∉ widened) ∧ (a ∉ dedup_urls ∅ widened))).
Proof.
  intros primary. subst primary. rewrite <- primary_window_spec. split.
  - intros H. unfold recency_dedup_filter.
    rewrite recent_window_no_escalation by done. done.
  - intros H Hparse widened.
    assert (recent_window all_articles = Ok widened) as Hw.
    { rewrite (recent_window_escalation _ (today - 3)) by done.
      by apply since_parsed. }
    split; [done|]. split.
    { unfold recency_dedup_filter. rewrite Hw. done. }
    intros a Ha. split.
    + intros Hd.
      assert (a ∈ widened) as Hin.
      { apply list_elem_of_filter. split; [|done].
        unfold dated_since. rewrite Hd. apply bool_decide_pack. lia. }
      split; [done|]. by apply dedup_urls_complete.
    + intros Hd.
      assert (a ∉ widened) as Hout.
      { intros [Hs _]%list_elem_of_filter. unfold dated_since in Hs.
        rewrite Hd in Hs. apply bool_decide_unpack in Hs. lia. }
      split; [done|]. intros Hin. apply Hout.
      eapply elem_of_sublist; [exact Hin|]. apply dedup_urls_sublist.
Qed.

(** C1. The filter applied to its own output returns that output, also
    when the first pass left fewer than five primary-window articles and
    the second pass widens the window; and the first pass does return on
    every list whose dates are well formed. *)
Theorem filter_idempotent
    (Hclock0 : strptime (strftime today) = Some today)
    (Hclock1 : strptime (strftime (today - 1)) = Some (today - 1))
    (Hclock3 : strptime (strftime (today - 3)) = Some (today - 3))
    (all_articles : list article) :
  (∀ out, recency_dedup_filter all_articles = Ok out →
          recency_dedup_filter out = Ok out)
  ∧ ((∀ a, a ∈ all_articles → is_Some (strptime (date a))) →
     ∃ out, recency_dedup_filter all_articles = Ok out
            ∧ recency_dedup_filter out = Ok out).
Proof.
  assert (∀ out, recency_dedup_filter all_articles = Ok out →
                 recency_dedup_filter out = Ok out) as Hidem.
  { intros out. unfold recency_dedup_filter at 1.
    destruct (recent_window all_articles) as [recent|] eqn:Hrecent; simpl; [|done].
    intros [= <-].
    assert (recent_window (dedup_urls ∅ recent) = Ok (dedup_urls ∅ recent)) as Hw;
      [|unfold recency_dedup_filter; rewrite Hw; simpl; by rewrite dedup_urls_idemp].
    pose proof (dedup_urls_sublist ∅ recent) as Hsub.
    destruct (decide (length (primary_window all_articles) < 5)%nat) as [Hlt|Hge].
    - (* the first pass widened the window *)
      rewrite (recent_window_escalation _ (today - 3)) in Hrecent by done.
      apply since_Ok_inv in Hrecent as [Hsub' Hall].
      rewrite (recent_window_escalation _ (today - 3)); [| |done].
      + apply since_fixed. intros a Ha. apply Hall.
        eapply elem_of_sublist; [exact Ha|done].
      + eapply Nat.le_lt_trans, Hlt. apply sublist_length.
        apply primary_window_sublist. by etrans.
    - (* the first pass kept the primary window *)
      rewrite recent_window_no_escalation in Hrecent by lia.
      injection Hrecent as <-.
      assert (∀ a, a ∈ dedup_urls ∅ (primary_window all_articles) →
                   date a = strftime today ∨ date a = strftime (today - 1)) as Hdates.
      { intros a Ha. eapply elem_of_sublist in Ha; [|exact Hsub].
        rewrite primary_window_spec in Ha.
        by apply list_elem_of_filter in Ha as [? _]. }
      destruct (decide (length (primary_window
                  (dedup_urls ∅ (primary_window all_articles))) < 5)%nat) as [Hlt|Hge'].
      + rewrite (recent_window_escalation _ (today - 3)) by done.
        apply since_fixed. intros a Ha. unfold dated_since.
        destruct (Hdates a Ha) as [-> | ->].
        * rewrite Hclock0. apply bool_decide_eq_true_2. lia.
        * rewrite Hclock1. apply bool_decide_eq_true_2. lia.
      + rewrite recent_window_no_escalation by lia. f_equal.
        rewrite primary_window_spec. apply list_filter_True_all.
        intros a Ha. by apply Hdates. }
  split; [done|]. intros Hparse.
  assert (∃ recent, recent_window all_articles = Ok recent) as [recent Hrecent].
  { destruct (decide (length (primary_window all_articles) < 5)%nat).
    - rewrite (recent_window_escalation _ (today - 3)) by done.
      rewrite since_parsed by done. eauto.
    - rewrite recent_window_no_escalation by lia. eauto. }
  exists (dedup_urls ∅ recent).
  assert (recency_dedup_filter all_articles = Ok (dedup_urls ∅ recent)) as Hout.
  { unfold recency_dedup_filter. by rewrite Hrecent. }
  split; [done|]. by apply Hidem.
Qed.

End FilterProperties.

Example filter_full_feed :
  recency_dedup_filter Calendar.strptime_ymd Calendar.strftime_ymd Samples.now0
    Samples.full_feed
  = Ok [ Samples.mk "w1" "2024-03-02" None; Samples.mk "w2" "2024-03-01" None;
         Samples.mk "w3" "2024-03-02" None; Samples.mk "w4" "2024-03-01" None;
         Samples.mk "w5" "2024-03-02" None ].
Proof. vm_compute. reflexivity. Qed.

Example filter_sparse_feed :
  recency_dedup_filter Calendar.strptime_ymd Calendar.strftime_ymd Samples.now0
    Samples.sparse_feed
  = Ok [ Samples.mk "v1" "2024-03-02" None; Samples.mk "v2" "2024-03-01" None;
         Samples.mk "v3" "2024-02-28" None ].
Proof. vm_compute. reflexivity. Qed.

Example filter_malformed_date :
  recency_dedup_filter Calendar.strptime_ymd Calendar.strftime_ymd Samples.now0
    [Samples.mk "x" "yesterday" None]
  = Raise ValueError.
Proof. vm_compute. reflexivity. Qed.

Lemma window_escalation_witness :
  recent_window Calendar.strptime_ymd Calendar.strftime_ymd Samples.now0
    Samples.sparse_feed
  = Ok (filter (λ a, dated_since Calendar.strptime_ymd (to_date Samples.now0 - 3) a)
          Samples.sparse_feed).
Proof.
  refine (proj1 (proj2 (window_escalation Calendar.strptime_ymd Calendar.strftime_ymd
            Samples.now0 _ Samples.sparse_feed) _ _)).
  - vm_compute. reflexivity.
  - vm_compute. lia.
  - intros a Ha. vm_compute in Ha.
    repeat (apply elem_of_cons in Ha as [->|Ha]; [vm_compute; eauto|]).
    by apply elem_of_nil in Ha.
Defined.

Lemma filter_idempotent_witness :
  recency_dedup_filter Calendar.strptime_ymd Calendar.strftime_ymd Samples.now0
    Samples.feed_with_duplicates_filtered
  = Ok Samples.feed_with_duplicates_filtered.
Proof.
  refine (proj1 (filter_idempotent Calendar.strptime_ymd Calendar.strftime_ymd
            Samples.now0 _ _ _ Samples.feed_with_duplicates) _ _).
  - vm_compute. reflexivity.
  - vm_compute. reflexivity.
  - vm_compute. reflexivity.
  - vm_compute. reflexivity.
Defined.

(** ** Classification *)

Lemma FALLBACK_in_CATEGORIES : FALLBACK ∈ CATEGORIES.
Proof. by apply (bool_decide_unpack _). Qed.

Lemma label_at_in_CATEGORIES cats idx : label_at cats idx ∈ CATEGORIES.
Proof.
  unfold label_at.
  destruct (cats !! idx) as [[| | |c| |]|]; try apply FALLBACK_in_CATEGORIES.
  case_decide; [done|apply FALLBACK_in_CATEGORIES].
Qed.

Section ClassifierProperties.

Local Open Scope nat_scope.

Variable json_loads : string → option json.
Variable api_key : option string.
Variable messages_create : nat → list article → api_response.

Abbreviation classify_batch := (classify_batch json_loads).
Abbreviation classify_step := (classify_step json_loads messages_create).
Abbreviation classify := (classify_articles json_loads api_key messages_create).

Lemma classify_batch_length response batch :
  length (classify_batch response batch) = length batch.
Proof.
  unfold classify_batch, fallback_all.
  repeat case_match; by rewrite ?length_fmap, ?length_imap.
Qed.

Lemma batch_at_lookup i l q : q < batch_size → batch_at i l !! q = l !! (i + q).
Proof. intros H. unfold batch_at. by rewrite lookup_take_lt, lookup_drop. Qed.

Lemma batch_at_length i l : length (batch_at i l) = min batch_size (length l - i).
Proof. unfold batch_at. by rewrite length_take, length_drop. Qed.

(** What a step does to the list: the slice at [i] is replaced, the rest
    stays. *)
Lemma classify_step_spec acc i :
  i ≤ length acc.1 →
  let acc' := classify_step acc i in
  length acc'.1 = length acc.1
  ∧ take i acc'.1 = take i acc.1
  ∧ drop (i + batch_size) acc'.1 = drop (i + batch_size) acc.1
  ∧ batch_at i acc'.1
    = classify_batch (messages_create i (batch_at i acc.1)) (batch_at i acc.1).
Proof.
  intros Hi. simpl.
  set (batch := batch_at i acc.1).
  set (done_batch := classify_batch (messages_create i batch) batch).
  assert (length done_batch = length batch) as Hlen by apply classify_batch_length.
  assert (length batch = min batch_size (length acc.1 - i)) as Hb
    by apply batch_at_length.
  assert (length (take i acc.1) = i) as Ht by (rewrite length_take; lia).
  split; [|split; [|split]].
  - rewrite !length_app, Ht, Hlen, Hb, length_drop. lia.
  - by rewrite take_app_length'.
  - rewrite drop_app_ge by lia. rewrite Ht.
    destruct (decide (batch_size ≤ length acc.1 - i)).
    + rewrite drop_app_length'; [done|]. rewrite Hlen, Hb. lia.
    + rewrite drop_app_ge by lia.
      rewrite (drop_ge acc.1) by lia. by rewrite drop_nil.
  - unfold batch_at at 1. rewrite drop_app_length' by done.
    destruct (decide (batch_size ≤ length acc.1 - i)).
    + rewrite take_app_length'; [done|]. rewrite Hlen, Hb. lia.
    + rewrite (drop_ge acc.1) by lia. rewrite app_nil_r.
      apply take_ge. rewrite Hlen, Hb. lia.
Qed.

Lemma batch_at_take i l : batch_at i l = drop i (take (i + batch_size) l).
Proof. apply take_drop_commute. Qed.

Lemma batch_at_drop i l1 l2 : drop i l1 = drop i l2 → batch_at i l1 = batch_at i l2.
Proof. unfold batch_at. by intros ->. Qed.

(** The loop over the offsets [j * batch_size, ..., (j + m - 1) * batch_size],
    entered with everything from [j * batch_size] on still untouched. *)
Lemma classify_fold_spec articles m j acc :
  length acc.1 = length articles →
  drop (j * batch_size) acc.1 = drop (j * batch_size) articles →
  (j + m) * batch_size < length articles + batch_size →
  let r := foldl classify_step acc ((λ k, k * batch_size) <$> seq j m) in
  length r.1 = length articles
  ∧ take (j * batch_size) r.1 = take (j * batch_size) acc.1
  ∧ ∀ k, j ≤ k < j + m →
      batch_at (k * batch_size) r.1
      = classify_batch
          (messages_create (k * batch_size) (batch_at (k * batch_size) articles))
          (batch_at (k * batch_size) articles).
Proof.
  revert j acc. induction m as [|m IH]; intros j acc Hlen Hdrop Hbound.
  - split; [done|]. split; [done|]. intros k Hk. lia.
  - cbn [seq]. rewrite fmap_cons. cbn [foldl].
    assert (j * batch_size ≤ length acc.1) as Hj by (unfold batch_size in *; lia).
    destruct (classify_step_spec acc (j * batch_size) Hj) as (S1 & S2 & S3 & S4).
    set (acc' := classify_step acc (j * batch_size)) in *.
    replace (j * batch_size + batch_size) with (S j * batch_size) in S3 by lia.
    destruct (IH (S j) acc') as (R1 & R2 & R3).
    { by rewrite S1. }
    { rewrite S3.
      replace (S j * batch_size) with (j * batch_size + batch_size) by lia.
      rewrite <- !drop_drop. by rewrite Hdrop. }
    { lia. }
    split; [done|]. split.
    + rewrite <- S2.
      trans (take (j * batch_size) (take (S j * batch_size) acc'.1)).
      * rewrite <- R2, take_take. f_equal. lia.
      * rewrite take_take. f_equal. lia.
    + intros k Hk. destruct (decide (k = j)) as [->|Hne]; [|apply R3; lia].
      rewrite batch_at_take.
      replace (j * batch_size + batch_size) with (S j * batch_size) by lia.
      rewrite R2.
      replace (S j * batch_size) with (j * batch_size + batch_size) by lia.
      rewrite <- batch_at_take, S4.
      by rewrite (batch_at_drop _ acc.1 articles).
Qed.

Lemma range_step_elem n i :
  i ∈ range_step n batch_size ↔ ∃ k, i = k * batch_size ∧ k * batch_size < n.
Proof.
  unfold range_step. rewrite list_elem_of_fmap. unfold batch_size. split.
  - intros (k & -> & Hk). exists k. split; [done|].
    apply elem_of_seq in Hk as [_ Hk].
    pose proof (Nat.Div0.mul_div_le (n + 20 - 1) 20). lia.
  - intros (k & -> & Hk). exists k. split; [done|].
    apply elem_of_seq. split; [lia|]. cbn [Nat.add].
    apply (Nat.div_le_lower_bound _ 20 (S k)); lia.
Qed.

(** With a key, the slice at each offset of the loop is the result of
    that batch's own [try] block on the input slice. *)
Lemma classify_articles_slice key articles i :
  api_key = Some key → key ≠ "" →
  i ∈ range_step (length articles) batch_size →
  length (classify articles).1 = length articles
  ∧ batch_at i (classify articles).1
    = classify_batch (messages_create i (batch_at i articles)) (batch_at i articles).
Proof.
  intros Hkey Hne (k & -> & Hk)%range_step_elem.
  unfold classify_articles. rewrite Hkey.
  destruct key as [|c key]; [done|].
  unfold range_step.
  destruct (classify_fold_spec articles
              ((length articles + batch_size - 1) `div` batch_size) 0
              (articles, [])) as (R1 & _ & R3); [done|done| |].
  { pose proof (Nat.Div0.mul_div_le (length articles + batch_size - 1) batch_size).
    unfold batch_size in *. lia. }
  split; [done|]. apply R3. split; [lia|]. cbn [Nat.add].
  unfold batch_size in *. apply (Nat.div_le_lower_bound _ 20 (S k)); lia.
Qed.

Lemma classify_articles_no_key articles :
  api_key = None ∨ api_key = Some "" →
  classify articles = (fallback_all articles, []).
Proof. unfold classify_articles. by intros [-> | ->]. Qed.

Lemma classify_batch_lookup response batch q a :
  batch !! q = Some a →
  ∃ c, classify_batch response batch !! q = Some (set_category c a) ∧ c ∈ CATEGORIES.
Proof.
  intros Hq.
  assert (∃ c, fallback_all batch !! q = Some (set_category c a) ∧ c ∈ CATEGORIES) as Hfb.
  { exists FALLBACK. split; [|apply FALLBACK_in_CATEGORIES].
    unfold fallback_all. by rewrite list_lookup_fmap, Hq. }
  unfold classify_batch. repeat case_match; try done.
  eexists. split; [|apply label_at_in_CATEGORIES].
  by rewrite list_lookup_imap, Hq.
Qed.

End ClassifierProperties.

(** C9. On every path of [classify_articles] (no key, any response of the
    service, any outcome of parsing it) the returned list is the input list
    with a category of the fixed enumeration set on every article. *)
Theorem category_membership
    (json_loads : string → option json) (api_key : option string)
    (messages_create : nat → list article → api_response)
    (articles : list article) :
  let out := (classify_articles json_loads api_key messages_create articles).1 in
  length out = length articles
  ∧ (∀ p a, articles !! p = Some a →
       ∃ c, out !! p = Some (set_category c a) ∧ c ∈ CATEGORIES)
  ∧ Forall (λ b, ∃ c, category b = Some c ∧ c ∈ CATEGORIES) out
  ∧ length CATEGORIES = 10%nat.
Proof.
  intros out.
  assert (length out = length articles
          ∧ ∀ p a, articles !! p = Some a →
              ∃ c, out !! p = Some (set_category c a) ∧ c ∈ CATEGORIES) as [Hlen Hpos].
  { subst out.
    assert (api_key = None ∨ api_key = Some ""
            ∨ ∃ key, api_key = Some key ∧ key ≠ "") as [Hkey|[Hkey|(key & Hkey & Hne)]].
    { destruct api_key as [[|ch key]|]; eauto 6. }
    1, 2: rewrite classify_articles_no_key by auto; simpl; split;
      [ unfold fallback_all; by rewrite length_fmap
      | intros p a Hp; exists FALLBACK; split; [|apply FALLBACK_in_CATEGORIES];
        unfold fallback_all; by rewrite list_lookup_fmap, Hp ].
    pose proof (classify_articles_slice json_loads api_key messages_create
                  key articles) as Hslice.
    split.
    - destruct articles as [|a0 rest] eqn:Ha.
      + unfold classify_articles. rewrite Hkey. by destruct key.
      + rewrite <- Ha in *. apply (Hslice 0%nat); [done..|].
        apply range_step_elem. exists 0%nat. rewrite Ha. simpl. split; lia.
    - intros p a Hp.
      pose proof (lookup_lt_Some _ _ _ Hp) as Hlt.
      pose proof (Nat.div_mod_eq p batch_size) as Hdm.
      pose proof (Nat.mod_upper_bound p batch_size) as Hmod.
      set (k := (p `div` batch_size)%nat) in *.
      set (q := (p `mod` batch_size)%nat) in *.
      assert (q < batch_size)%nat as Hq by (apply Hmod; done).
      assert (k * batch_size + q = p)%nat as Hp' by lia. clearbody k q.
      destruct (Hslice (k * batch_size)%nat) as [_ Hsl]; [done..| |].
      { apply range_step_elem. exists k. split; [done|]. lia. }
      destruct (classify_batch_lookup json_loads
                  (messages_create (k * batch_size)%nat
                     (batch_at (k * batch_size) articles))
                  (batch_at (k * batch_size) articles) q a) as (c & Hc & Hin).
      { rewrite batch_at_lookup by done. by rewrite Hp'. }
      exists c. split; [|done]. rewrite <- Hc, <- Hsl.
      rewrite batch_at_lookup by done. by rewrite Hp'. }
  split; [done|]. split; [done|]. split; [|done].
  apply Forall_lookup. intros p b Hb.
  destruct (articles !! p) as [a|] eqn:Ha.
  - destruct (Hpos p a Ha) as (c & Hc & Hin). rewrite Hc in Hb.
    injection Hb as <-. by exists c.
  - apply lookup_lt_Some in Hb. apply lookup_ge_None in Ha. lia.
Qed.

(** C7. With a key, at each offset [i] of the batch loop: the classified
    slice is what the batch's own response yields on the input slice, so it
    is the same under any other service that answers this batch alike,
    whatever happens to the other batches; a response that fails as a whole
    gives every article of the batch the fallback category; a response that
    parses gives each article its label when that label exists at its index
    and is in the fixed list, and the fallback category when it is missing
    or not in the list. *)
Theorem classification_fallback_isolation
    (json_loads : string → option json) (api_key : option string)
    (messages_create : nat → list article → api_response)
    (key : string) (Hkey : api_key = Some key) (Hne : key ≠ "")
    (articles : list article) (i : nat)
    (Hi : i ∈ range_step (length articles) batch_size) :
  let batch := batch_at i articles in
  let out :=
    batch_at i (classify_articles json_loads api_key messages_create articles).1 in
  out = classify_batch json_loads (messages_create i batch) batch
  ∧ (∀ other,
       other i batch = messages_create i batch →
       batch_at i (classify_articles json_loads api_key other articles).1 = out)
  ∧ (messages_create i batch = ApiError
     ∨ (∃ text, messages_create i batch = ApiText text
                ∧ (re_search_array text = None
                   ∨ ∃ found, re_search_array text = Some found
                              ∧ json_loads found = None)) →
     out = set_category FALLBACK <$> batch)
  ∧ (∀ text found cats,
       messages_create i batch = ApiText text →
       re_search_array text = Some found →
       json_loads found = Some (JArray cats) →
       ∀ idx a, batch !! idx = Some a →
         (∀ c, cats !! idx = Some (JString c) → c ∈ CATEGORIES →
               out !! idx = Some (set_category c a))
         ∧ (cats !! idx = None → out !! idx = Some (set_category FALLBACK a))
         ∧ (∀ v, cats !! idx = Some v → (∀ c, v = JString c → c ∉ CATEGORIES) →
                 out !! idx = Some (set_category FALLBACK a))).
Proof.
  intros batch out.
  assert (out = classify_batch json_loads (messages_create i batch) batch) as Hout.
  { subst out batch. by eapply classify_articles_slice. }
  split; [done|]. split; [|split].
  - intros other Hother. rewrite Hout, <- Hother. subst batch.
    by eapply classify_articles_slice.
  - rewrite Hout. unfold classify_batch, fallback_all.
    intros [-> | (text & -> & [-> | (found & -> & ->)])]; done.
  - intros text found cats Hr Hs Hj idx a Ha.
    assert (out !! idx = Some (set_category (label_at cats idx) a)) as Hidx.
    { rewrite Hout. unfold classify_batch. rewrite Hr, Hs, Hj.
      by rewrite list_lookup_imap, Ha. }
    rewrite Hidx. unfold label_at. split; [|split].
    + intros c -> Hc. by rewrite decide_True.
    + by intros ->.
    + intros v -> Hv. destruct v as [| | |c| |]; try done.
      rewrite decide_False; [done|]. by apply Hv.
Qed.

(** ** Balanced selector *)

(** The articles of category [c], in order. *)
Abbreviation group c l := (filter (λ a : article, get_category a = c) l).

Lemma rr_loop_eq by_cat cat_keys max_count sel idx :
  rr_loop by_cat cat_keys max_count sel idx
  = if decide (Z.of_nat (length sel) < max_count) then
      let st := rr_sweep by_cat cat_keys max_count sel idx in
      if added st
      then rr_loop by_cat cat_keys max_count (selected st) (idx_per_cat st)
      else selected st
    else sel.
Proof.
  rewrite rr_loop_equation_1.
  destruct (decide (Z.of_nat (length sel) < max_count)); [|done].
  simpl. by destruct (added (rr_sweep by_cat cat_keys max_count sel idx)).
Qed.

Lemma group_cons_eq c a l : get_category a = c → group c (a :: l) = a :: group c l.
Proof. intros H. by rewrite filter_cons_True. Qed.

Lemma group_cons_ne c a l : get_category a ≠ c → group c (a :: l) = group c l.
Proof. intros H. by rewrite filter_cons_False. Qed.

(** The grouping loop, entered with any dict whose key order is [ks]. *)
Lemma group_fold_spec l : ∀ m ks,
  (∀ c, c ∈ ks ↔ is_Some (m !! c)) → NoDup ks →
  let r := foldl group_add (m, ks) l in
  (∀ c, default [] (r.1 !! c) = default [] (m !! c) ++ group c l)
  ∧ (∀ c, is_Some (r.1 !! c) ↔ is_Some (m !! c) ∨ group c l ≠ [])
  ∧ (∀ c, c ∈ r.2 ↔ is_Some (r.1 !! c))
  ∧ NoDup r.2
  ∧ r.2 = ks ++ first_seen (list_to_set ks) (get_category <$> l).
Proof.
  induction l as [|a l IH]; intros m ks Hdom Hnd.
  - simpl. rewrite app_nil_r. split; [|split; [|split]]; [| |done..].
    + intros c. by rewrite app_nil_r.
    + intros c. split; [by left|]. by intros [?|?].
  - cbn [foldl]. set (cat := get_category a).
    destruct (m !! cat) as [g|] eqn:Hm.
    + assert (group_add (m, ks) a = (<[cat := g ++ [a]]> m, ks)) as ->.
      { unfold group_add. cbn [fst snd]. fold cat. by rewrite Hm. }
      destruct (IH (<[cat := g ++ [a]]> m) ks) as (R1 & R2 & R3 & R4 & R5); [|done|].
      { intros c. rewrite Hdom. destruct (decide (cat = c)) as [<-|Hne].
        - rewrite lookup_insert_eq, Hm. split; eauto.
        - by rewrite lookup_insert_ne. }
      split; [|split; [|split; [|split]]]; [| |done..|].
      * intros c. rewrite R1. destruct (decide (cat = c)) as [<-|Hne].
        -- rewrite lookup_insert_eq, Hm, group_cons_eq by done. simpl.
           by rewrite <- app_assoc.
        -- rewrite lookup_insert_ne, group_cons_ne by done. done.
      * intros c. rewrite R2. destruct (decide (cat = c)) as [<-|Hne].
        -- rewrite lookup_insert_eq, Hm. split; eauto.
        -- rewrite lookup_insert_ne, group_cons_ne by done. done.
      * rewrite R5. cbn [fmap list_fmap first_seen]. fold cat.
        rewrite decide_True; [done|].
        apply elem_of_list_to_set, Hdom. rewrite Hm. eauto.
    + assert (group_add (m, ks) a = (<[cat := [a]]> m, ks ++ [cat])) as ->.
      { unfold group_add. cbn [fst snd]. fold cat. by rewrite Hm. }
      assert (cat ∉ ks) as Hfresh.
      { rewrite Hdom, Hm. by intros [? [=]]. }
      destruct (IH (<[cat := [a]]> m) (ks ++ [cat])) as (R1 & R2 & R3 & R4 & R5).
      { intros c. rewrite elem_of_app, list_elem_of_singleton, Hdom.
        destruct (decide (cat = c)) as [<-|Hne].
        - rewrite lookup_insert_eq. split; eauto.
        - rewrite lookup_insert_ne by done.
          split; [intros [?|?]; [done|congruence]|by left]. }
      { apply NoDup_app. split; [done|]. split; [|apply NoDup_singleton].
        intros c Hc ->%list_elem_of_singleton. done. }
      split; [|split; [|split; [|split]]]; [| |done..|].
      * intros c. rewrite R1. destruct (decide (cat = c)) as [<-|Hne].
        -- rewrite lookup_insert_eq, Hm, group_cons_eq by done. done.
        -- rewrite lookup_insert_ne, group_cons_ne by done. done.
      * intros c. rewrite R2. destruct (decide (cat = c)) as [<-|Hne].
        -- rewrite lookup_insert_eq, group_cons_eq by done. split; eauto.
        -- rewrite lookup_insert_ne, group_cons_ne by done. done.
      * rewrite R5. cbn [fmap list_fmap first_seen]. fold cat.
        rewrite decide_False by (by rewrite elem_of_list_to_set).
        rewrite <- app_assoc. simpl. do 3 f_equal.
        rewrite list_to_set_app_L. simpl.
        rewrite (right_id_L ∅ (∪)). apply (comm_L (∪)).
Qed.

(** What the grouping loop of [select_top_articles] builds. *)
Lemma group_by_category_spec l :
  let by_cat := (group_by_category l).1 in
  let cat_keys := (group_by_category l).2 in
  (∀ c, default [] (by_cat !! c) = group c l)
  ∧ (∀ c, c ∈ cat_keys ↔ group c l ≠ [])
  ∧ NoDup cat_keys
  ∧ cat_keys = first_seen ∅ (get_category <$> l).
Proof.
  destruct (group_fold_spec l ∅ []) as (R1 & R2 & R3 & R4 & R5).
  { intros c. rewrite lookup_empty, elem_of_nil. split; [done|]. by intros [? [=]]. }
  { constructor. }
  split; [|split; [|split]]; [| |done|done].
  - intros c. by rewrite R1, lookup_empty.
  - intros c. rewrite R3, R2, lookup_empty. split; [|eauto].
    intros [[? [=]]|?]; done.
Qed.

(** A list is included in another, as a multiset, as soon as it is so
    category by category. *)
Lemma submseteq_by_category (l1 l2 : list article) :
  (∀ c, group c l1 ⊆+ group c l2) → l1 ⊆+ l2.
Proof.
  revert l2. induction l1 as [|a l1 IH]; intros l2 H.
  - apply submseteq_nil_l.
  - assert (a ∈ l2) as Ha.
    { specialize (H (get_category a)). rewrite group_cons_eq in H by done.
      assert (a ∈ group (get_category a) l2) as Hin
        by (eapply elem_of_submseteq; [|exact H]; left).
      by apply list_elem_of_filter in Hin as [_ ?]. }
    apply list_elem_of_split in Ha as (p & s & ->).
    rewrite <- Permutation_middle. apply submseteq_skip, IH.
    intros c. specialize (H c). rewrite filter_app in H. rewrite filter_app.
    destruct (decide (get_category a = c)) as [Hc|Hc].
    + rewrite !group_cons_eq in H by done.
      rewrite <- Permutation_middle in H.
      by apply (submseteq_app_inv_l _ _ [a]) in H.
    + by rewrite !group_cons_ne in H by done.
Qed.

Lemma length_by_category (l1 l2 : list article) :
  (∀ c, group c l1 = group c l2) → length l1 = length l2.
Proof.
  intros H. apply Nat.le_antisymm; apply submseteq_length, submseteq_by_category;
    intros c; by rewrite H.
Qed.

(** How many articles of a category the loop has taken: [idx_per_cat[c]]. *)
Definition taken (idx : gmap string nat) (c : string) : nat :=
  default 0%nat (idx !! c).

Lemma foldl_invariant {A B} (P : A → Prop) (f : A → B → A) (l : list B) (a : A) :
  P a → (∀ a b, P a → P (f a b)) → P (foldl f a l).
Proof. revert a. induction l as [|b l IH]; intros a Ha Hf; simpl; auto. Qed.

Section RoundRobin.

Variable articles : list article.
Variable by_cat : gmap string (list article).
Variable cat_keys : list string.
Variable max_count : Z.

Hypothesis by_cat_groups : ∀ c, default [] (by_cat !! c) = group c articles.
Hypothesis cat_keys_groups : ∀ c, c ∈ cat_keys ↔ group c articles ≠ [].

Abbreviation visit := (rr_visit by_cat max_count).
Abbreviation sweep := (rr_sweep by_cat cat_keys max_count).
Abbreviation loop := (rr_loop by_cat cat_keys max_count).

Lemma rr_visit_take st cat a :
  group cat articles !! taken (idx_per_cat st) cat = Some a →
  Z.of_nat (length (selected st)) < max_count →
  visit st cat
  = RRState (selected st ++ [a])
      (<[cat := S (taken (idx_per_cat st) cat)]> (idx_per_cat st)) true.
Proof.
  intros Ha Hlt. unfold rr_visit. rewrite by_cat_groups.
  fold (taken (idx_per_cat st) cat). rewrite Ha. by rewrite decide_True.
Qed.

Lemma rr_visit_skip st cat :
  group cat articles !! taken (idx_per_cat st) cat = None
  ∨ ¬ Z.of_nat (length (selected st)) < max_count →
  visit st cat = st.
Proof.
  intros H. unfold rr_visit. rewrite by_cat_groups.
  fold (taken (idx_per_cat st) cat).
  destruct (group cat articles !! taken (idx_per_cat st) cat); [|done].
  destruct H as [?|?]; [done|]. by rewrite decide_False.
Qed.

(** A visit either takes the next article of the category or changes
    nothing. *)
Lemma rr_visit_cases st cat :
  (∃ a, group cat articles !! taken (idx_per_cat st) cat = Some a
        ∧ Z.of_nat (length (selected st)) < max_count
        ∧ visit st cat
          = RRState (selected st ++ [a])
              (<[cat := S (taken (idx_per_cat st) cat)]> (idx_per_cat st)) true)
  ∨ ((group cat articles !! taken (idx_per_cat st) cat = None
      ∨ ¬ Z.of_nat (length (selected st)) < max_count)
     ∧ visit st cat = st).
Proof.
  destruct (group cat articles !! taken (idx_per_cat st) cat) as [a|] eqn:Ha.
  - destruct (decide (Z.of_nat (length (selected st)) < max_count)).
    + left. exists a. split; [done|]. split; [done|]. by apply rr_visit_take.
    + right. split; [by right|]. apply rr_visit_skip. by right.
  - right. split; [by left|]. apply rr_visit_skip. by left.
Qed.

Lemma taken_insert_eq idx c n : taken (<[c := n]> idx) c = n.
Proof. unfold taken. by rewrite lookup_insert_eq. Qed.

Lemma taken_insert_ne idx c c' n : c ≠ c' → taken (<[c := n]> idx) c' = taken idx c'.
Proof. intros H. unfold taken. by rewrite lookup_insert_ne. Qed.

(** The loop invariant: category by category, what is selected is the
    first [idx_per_cat[c]] articles of the category; the cap holds. *)
Definition rr_inv (sel : list article) (idx : gmap string nat) : Prop :=
  (∀ c, group c sel = take (taken idx c) (group c articles))
  ∧ Z.of_nat (length sel) ≤ max_count.

Definition rr_inv_state (st : rr_state) : Prop :=
  rr_inv (selected st) (idx_per_cat st).

Lemma rr_visit_inv st cat : rr_inv_state st → rr_inv_state (visit st cat).
Proof.
  intros [Hsel Hcap].
  destruct (rr_visit_cases st cat) as [(a & Ha & Hlt & ->)|[_ ->]]; [|done].
  assert (get_category a = cat) as Hcat.
  { apply list_elem_of_lookup_2 in Ha. by apply list_elem_of_filter in Ha as [? _]. }
  split; simpl.
  - intros c. rewrite filter_app, Hsel.
    destruct (decide (cat = c)) as [<-|Hne].
    + rewrite taken_insert_eq, group_cons_eq by done.
      by rewrite (take_S_r _ _ a).
    + rewrite taken_insert_ne, group_cons_ne by congruence.
      by rewrite app_nil_r.
  - rewrite length_app. simpl. lia.
Qed.

Lemma rr_visit_taken_mono st cat c :
  (taken (idx_per_cat st) c ≤ taken (idx_per_cat (visit st cat)) c)%nat.
Proof.
  destruct (rr_visit_cases st cat) as [(a & Ha & Hlt & ->)|[_ ->]]; [|done].
  simpl. destruct (decide (cat = c)) as [<-|Hne].
  - rewrite taken_insert_eq. lia.
  - by rewrite taken_insert_ne.
Qed.

Lemma rr_fold_taken_mono ks st c :
  (taken (idx_per_cat st) c ≤ taken (idx_per_cat (foldl visit st ks)) c)%nat.
Proof.
  revert st. induction ks as [|k ks IH]; intros st; simpl; [done|].
  etrans; [apply (rr_visit_taken_mono st k c)|apply IH].
Qed.

(** A sweep that adds nothing leaves the state as it is, and no category
    had an article to give. *)
Lemma rr_fold_not_added ks st :
  added (foldl visit st ks) = false →
  foldl visit st ks = st ∧ ∀ c, c ∈ ks → visit st c = st.
Proof.
  revert st. induction ks as [|k ks IH]; intros st Hadd; simpl in *.
  - split; [done|]. intros c Hc. by apply elem_of_nil in Hc.
  - destruct (IH _ Hadd) as [Heq Hall]. rewrite Heq in Hadd.
    assert (visit st k = st) as Hk.
    { destruct (rr_visit_cases st k) as [(a & _ & _ & Hv)|[_ Hv]]; [|done].
      rewrite Hv in Hadd. done. }
    rewrite Hk in *. split; [done|].
    intros c [->|Hc]%elem_of_cons; auto.
Qed.

(** When nothing can be added below the cap, everything is selected. *)
Lemma rr_exhausted sel idx :
  rr_inv sel idx →
  Z.of_nat (length sel) < max_count →
  added (sweep sel idx) = false →
  length sel = length articles.
Proof.
  intros [Hsel _] Hlt Hadd. apply rr_fold_not_added in Hadd as [_ Hall].
  apply length_by_category. intros c. rewrite Hsel.
  destruct (decide (c ∈ cat_keys)) as [Hc|Hc].
  - specialize (Hall c Hc).
    destruct (rr_visit_cases (RRState sel idx false) c)
      as [(a & _ & _ & Hv)|[[Hnone|?] _]]; simpl in *; [| |done].
    + rewrite Hv in Hall. done.
    + apply take_ge. by apply lookup_ge_None.
  - rewrite cat_keys_groups in Hc.
    destruct (group c articles); [by rewrite take_nil|]. by destruct Hc.
Qed.

(** The rule of the [while] loop: an invariant of the sweeps holds of the
    state the loop ends in, and there the cap is reached or a sweep adds
    nothing. *)
Lemma rr_loop_invariant (P : list article → gmap string nat → Prop) :
  (∀ sel idx, P sel idx → Z.of_nat (length sel) < max_count →
              P (selected (sweep sel idx)) (idx_per_cat (sweep sel idx))) →
  ∀ sel idx, P sel idx →
    ∃ idx', P (loop sel idx) idx'
            ∧ (Z.of_nat (length (loop sel idx)) < max_count →
               added (sweep (loop sel idx) idx') = false).
Proof.
  intros Hstep sel idx.
  remember (Z.to_nat (max_count - Z.of_nat (length sel))) as n eqn:Hn.
  revert sel idx Hn. induction (lt_wf n) as [n _ IH]. intros sel idx Hn HP.
  rewrite rr_loop_eq. case_decide as Hlt.
  - cbn zeta. destruct (added (sweep sel idx)) eqn:Hadd.
    + eapply IH; [|done|by apply Hstep].
      apply rr_sweep_progress in Hadd. lia.
    + destruct (rr_fold_not_added cat_keys (RRState sel idx false) Hadd) as [Heq _].
      unfold rr_sweep in *. rewrite Heq. simpl. exists idx. split; [done|].
      intros _. by rewrite Heq.
  - exists idx. split; [done|]. intros ?. done.
Qed.

Lemma rr_sweep_inv sel idx : rr_inv sel idx → rr_inv_state (sweep sel idx).
Proof.
  intros H. unfold rr_sweep.
  apply (foldl_invariant rr_inv_state); [done|]. intros st c. apply rr_visit_inv.
Qed.

Lemma rr_inv_init idx :
  0 ≤ max_count → (∀ c, taken idx c = 0%nat) → rr_inv [] idx.
Proof. intros H0 Hz. split; [|simpl; lia]. intros c. by rewrite Hz. Qed.

(** Above the cap the loop stops with exactly [max_count] articles. *)
Lemma rr_loop_length idx :
  0 ≤ max_count → max_count < Z.of_nat (length articles) →
  (∀ c, taken idx c = 0%nat) →
  Z.of_nat (length (loop [] idx)) = max_count.
Proof.
  intros H0 Hlen Hz.
  destruct (rr_loop_invariant rr_inv) with (sel := @nil article) (idx := idx)
    as (idx' & [Hsel Hcap] & Hexit).
  { intros sel idx0 Hinv _. by apply rr_sweep_inv. }
  { by apply rr_inv_init. }
  destruct (decide (Z.of_nat (length (loop [] idx)) < max_count)) as [Hlt|]; [|lia].
  pose proof (rr_exhausted _ idx' (conj Hsel Hcap) Hlt (Hexit Hlt)). lia.
Qed.

(** All keys have given at least one article. *)
Definition rr_floor (idx : gmap string nat) : Prop :=
  ∀ c, c ∈ cat_keys → (1 ≤ taken idx c)%nat.

(** A sweep that starts with room for one article per key takes one from
    every key. *)
Lemma rr_fold_floor ks st n :
  (∀ c, c ∈ ks → group c articles ≠ []) →
  Z.of_nat (length (selected st)) ≤ n →
  n + Z.of_nat (length ks) ≤ max_count →
  ∀ c, c ∈ ks → (1 ≤ taken (idx_per_cat (foldl visit st ks)) c)%nat.
Proof.
  revert st n. induction ks as [|k ks IH]; intros st n Hne Hlen Hcap c Hc.
  - by apply elem_of_nil in Hc.
  - cbn [foldl]. cbn [length] in Hcap.
    apply elem_of_cons in Hc as [->|Hc].
    + etrans; [|apply rr_fold_taken_mono].
      destruct (rr_visit_cases st k) as [(a & _ & _ & ->)|[[Hnone|Hfull] ->]].
      * simpl. rewrite taken_insert_eq. lia.
      * apply lookup_ge_None in Hnone.
        pose proof (Hne k (list_elem_of_here _ _)) as Hk.
        destruct (group k articles); [done|]. simpl in Hnone. lia.
      * lia.
    + apply (IH (visit st k) (n + 1)); [|
        |lia|done].
      * intros c' Hc'. apply Hne. by right.
      * destruct (rr_visit_cases st k) as [(a & _ & _ & ->)|[_ ->]]; [|lia].
        simpl. rewrite length_app. simpl. lia.
Qed.

Lemma rr_loop_floor idx :
  Z.of_nat (length cat_keys) ≤ max_count →
  max_count < Z.of_nat (length articles) →
  (∀ c, taken idx c = 0%nat) →
  ∃ idx', rr_inv (loop [] idx) idx' ∧ rr_floor idx'.
Proof.
  intros Hkeys Hlen Hz.
  destruct (rr_loop_invariant (λ sel idx, rr_inv sel idx ∧ (sel = [] ∨ rr_floor idx)))
    with (sel := @nil article) (idx := idx) as (idx' & [Hinv Hfloor] & Hexit).
  { intros sel idx0 [Hinv Hor] _. split; [by apply rr_sweep_inv|]. right.
    destruct Hor as [->|Hfloor].
    - intros c Hc. unfold rr_sweep.
      apply (rr_fold_floor cat_keys _ 0); [|simpl; lia|lia|done].
      intros c'. apply cat_keys_groups.
    - intros c Hc. etrans; [by apply Hfloor|].
      apply (rr_fold_taken_mono cat_keys (RRState sel idx0 false)). }
  { split; [|by left]. apply rr_inv_init; [lia|done]. }
  exists idx'. split; [done|]. destruct Hfloor as [Hnil|?]; [|done].
  exfalso.
  assert (0 < Z.of_nat (length cat_keys)) as Hpos.
  { assert (∃ c, c ∈ cat_keys) as [c Hc].
    { destruct articles as [|a0 rest]; [simpl in Hlen; lia|].
      exists (get_category a0). apply cat_keys_groups. by rewrite group_cons_eq. }
    apply list_elem_of_lookup in Hc as [i Hi]. apply lookup_lt_Some in Hi. lia. }
  assert (Z.of_nat (length (loop [] idx)) < max_count) as Hlt
    by (rewrite Hnil; simpl; lia).
  pose proof (rr_exhausted _ idx' Hinv Hlt (Hexit Hlt)) as Hall.
  rewrite Hnil in Hall. simpl in Hall. lia.
Qed.

End RoundRobin.

Lemma taken_zero (by_cat : gmap string (list article)) c :
  taken ((λ _, 0%nat) <$> by_cat) c = 0%nat.
Proof. unfold taken. rewrite lookup_fmap. by destruct (by_cat !! c). Qed.

Lemma group_nonempty c (l : list article) :
  group c l ≠ [] ↔ ∃ a, a ∈ l ∧ get_category a = c.
Proof.
  split.
  - destruct (group c l) as [|a g] eqn:Hg; [done|]. intros _. exists a.
    assert (a ∈ group c l) as Ha by (rewrite Hg; left).
    apply list_elem_of_filter in Ha as [? ?]. eauto.
  - intros (a & Ha & Hc) Hg.
    assert (a ∈ group c l) as Hin by (by apply list_elem_of_filter).
    rewrite Hg in Hin. by apply elem_of_nil in Hin.
Qed.

(** The selector, above the cap, in terms of the loop on the groups. *)
Lemma select_top_articles_above l max_count :
  max_count < Z.of_nat (length l) →
  select_top_articles l max_count
  = rr_loop (group_by_category l).1 (group_by_category l).2 max_count []
      ((λ _, 0%nat) <$> (group_by_category l).1).
Proof.
  intros H. unfold select_top_articles. rewrite decide_False by lia.
  by destruct (group_by_category l).
Qed.

(** C3, as the code has it: for a cap that is not negative, the selection
    has exactly [min(max_count, len(articles))] articles; above the cap the
    loop stops at [max_count] articles, never earlier. *)
Theorem selection_bound (articles : list article) (max_count : Z) :
  0 ≤ max_count →
  Z.of_nat (length (select_top_articles articles max_count))
  = Z.min max_count (Z.of_nat (length articles)).
Proof.
  intros H0. destruct (decide (Z.of_nat (length articles) ≤ max_count)) as [Hle|Hgt].
  - unfold select_top_articles. rewrite decide_True by done. lia.
  - rewrite select_top_articles_above by lia.
    destruct (group_by_category_spec articles) as (Hgrp & Hkeys & _ & _).
    rewrite (rr_loop_length articles _ _ max_count Hgrp Hkeys); [lia|lia|lia|].
    apply taken_zero.
Qed.

(** C3 as stated fails for a negative cap: nothing is selected, and the
    minimum is negative. *)
Lemma selection_bound_negative_cap :
  Z.of_nat (length (select_top_articles [Samples.mk "u" "2024-03-02" (Some FALLBACK)] (-1)))
  ≠ Z.min (-1) (Z.of_nat (length [Samples.mk "u" "2024-03-02" (Some FALLBACK)])).
Proof. vm_compute. discriminate. Qed.

(** C10. When the input is longer than the cap and has at most [max_count]
    distinct categories, every category of the input has an article in the
    selection; category by category the selection is an initial segment of
    the input's articles of that category, so the original order is kept
    and no article is taken twice; the selection is a sub-multiset of the
    input. *)
Theorem fairness_floor (articles : list article) (max_count : Z) :
  max_count < Z.of_nat (length articles) →
  Z.of_nat (size (list_to_set (get_category <$> articles) : gset string)) ≤ max_count →
  let out := select_top_articles articles max_count in
  (∀ a, a ∈ articles → ∃ b, b ∈ out ∧ get_category b = get_category a)
  ∧ (∀ c, group c out `prefix_of` group c articles)
  ∧ out ⊆+ articles.
Proof.
  intros Hlen Hcats out. subst out. rewrite select_top_articles_above by done.
  destruct (group_by_category_spec articles) as (Hgrp & Hkeys & Hnd & _).
  set (by_cat := (group_by_category articles).1) in *.
  set (cat_keys := (group_by_category articles).2) in *.
  assert (length cat_keys
          = size (list_to_set (get_category <$> articles) : gset string)) as Hsize.
  { rewrite <- (size_list_to_set (C:=gset string) cat_keys) by done. f_equal.
    apply set_eq. intros c. rewrite !elem_of_list_to_set, Hkeys, group_nonempty.
    rewrite list_elem_of_fmap. split; intros (a & ? & ?); eauto. }
  destruct (rr_loop_floor articles by_cat cat_keys max_count Hgrp Hkeys
              ((λ _, 0%nat) <$> by_cat)) as (idx' & [Hsel _] & Hfloor);
    [lia|done|apply taken_zero|].
  split; [|split].
  - intros a Ha.
    assert (get_category a ∈ cat_keys) as Hin.
    { apply Hkeys, group_nonempty. eauto. }
    pose proof (Hfloor _ Hin) as Htaken.
    apply Hkeys in Hin.
    destruct (group (get_category a) articles) as [|b g] eqn:Hg; [done|].
    assert (b ∈ group (get_category a)
                  (rr_loop by_cat cat_keys max_count [] ((λ _, 0%nat) <$> by_cat))) as Hb.
    { rewrite Hsel, Hg. destruct (taken idx' (get_category a)); [lia|]. left. }
    apply list_elem_of_filter in Hb as [? ?]. eauto.
  - intros c. rewrite Hsel. apply prefix_take.
  - apply submseteq_by_category. intros c. rewrite Hsel.
    apply sublist_submseteq, sublist_take.
Qed.

(** C4. Ten articles of a category [A], two of [B] and one of [C], the
    categories first seen in this order: with [max_count = 5] the selection
    is the first article of each category, then the second of [A] and of
    [B]; it holds two articles of [A], two of [B] and one of [C], the
    earliest of each. *)
Theorem round_robin_fairness
    (articles : list article) (A B C : string)
    (a1 a2 b1 b2 c1 : article) (rest_a : list article) :
  first_seen ∅ (get_category <$> articles) = [A; B; C] →
  group A articles = a1 :: a2 :: rest_a → length rest_a = 8%nat →
  group B articles = [b1; b2] →
  group C articles = [c1] →
  let out := select_top_articles articles 5 in
  out = [a1; b1; c1; a2; b2]
  ∧ group A out = take 2 (group A articles)
  ∧ group B out = take 2 (group B articles)
  ∧ group C out = take 1 (group C articles).
Proof.
  intros Hseen HA Hrest HB HC out.
  destruct (group_by_category_spec articles) as (Hgrp & _ & Hnd & Hkeys).
  rewrite Hseen in Hkeys. rewrite Hkeys in Hnd.
  assert (A ≠ B ∧ A ≠ C ∧ B ≠ C) as (HAB & HAC & HBC).
  { apply NoDup_cons in Hnd as [HA' Hnd]. apply NoDup_cons in Hnd as [HB' _].
    rewrite !elem_of_cons, elem_of_nil in HA'.
    rewrite !elem_of_cons, elem_of_nil in HB'. tauto. }
  assert (get_category a1 = A ∧ get_category a2 = A ∧ get_category b1 = B
          ∧ get_category b2 = B ∧ get_category c1 = C) as (Ca1 & Ca2 & Cb1 & Cb2 & Cc1).
  { assert (∀ c x, x ∈ group c articles → get_category x = c) as Hcat
      by (intros c x [? _]%list_elem_of_filter; done).
    repeat split; apply Hcat.
    - rewrite HA. left.
    - rewrite HA. right. left.
    - rewrite HB. left.
    - rewrite HB. right. left.
    - rewrite HC. left. }
  assert (out = [a1; b1; c1; a2; b2]) as Hout.
  { subst out. rewrite select_top_articles_above.
    2:{ pose proof (length_filter (λ a, get_category a = A) articles) as Hle.
        rewrite HA in Hle. simpl in Hle. lia. }
    rewrite Hkeys.
    set (by_cat := (group_by_category articles).1) in *.
    set (idx0 := (λ _, 0%nat) <$> by_cat).
    assert (∀ c, taken idx0 c = 0%nat) as Hz by apply taken_zero.
    (* first sweep *)
    rewrite rr_loop_eq, decide_True by (simpl; lia). cbn zeta.
    unfold rr_sweep at 1 2 3. cbn [foldl].
    rewrite (rr_visit_take articles by_cat 5 Hgrp _ A a1);
      [|simpl; by rewrite Hz, HA|simpl; lia].
    rewrite (rr_visit_take articles by_cat 5 Hgrp _ B b1);
      [|simpl; rewrite !taken_insert_ne by congruence; by rewrite Hz, HB|simpl; lia].
    rewrite (rr_visit_take articles by_cat 5 Hgrp _ C c1);
      [|simpl; rewrite !taken_insert_ne by congruence; by rewrite Hz, HC|simpl; lia].
    cbn [added selected idx_per_cat app].
    rewrite !taken_insert_ne, !Hz by congruence.
    (* second sweep *)
    rewrite rr_loop_eq, decide_True by (simpl; lia). cbn zeta.
    unfold rr_sweep at 1 2 3. cbn [foldl].
    rewrite (rr_visit_take articles by_cat 5 Hgrp _ A a2);
      [|simpl; rewrite !taken_insert_ne by congruence;
        by rewrite taken_insert_eq, HA|simpl; lia].
    rewrite (rr_visit_take articles by_cat 5 Hgrp _ B b2);
      [|simpl; rewrite !taken_insert_ne by congruence;
        by rewrite taken_insert_eq, HB|simpl; lia].
    rewrite (rr_visit_skip articles by_cat 5 Hgrp _ C) by (right; simpl; lia).
    cbn [added selected idx_per_cat app].
    (* the cap is reached *)
    rewrite rr_loop_eq, decide_False by (simpl; lia). done. }
  split; [done|]. rewrite Hout, HA, HB, HC. simpl.
  split; [|split].
  - rewrite (group_cons_eq A a1), (group_cons_ne A b1), (group_cons_ne A c1),
      (group_cons_eq A a2), (group_cons_ne A b2) by congruence. done.
  - rewrite (group_cons_ne B a1), (group_cons_eq B b1), (group_cons_ne B c1),
      (group_cons_ne B a2), (group_cons_eq B b2) by congruence. done.
  - rewrite (group_cons_ne C a1), (group_cons_ne C b1), (group_cons_eq C c1),
      (group_cons_ne C a2), (group_cons_ne C b2) by congruence. done.
Qed.

Lemma selection_bound_witness :
  Z.of_nat (length (select_top_articles Samples.thirteen 5))
  = Z.min 5 (Z.of_nat (length Samples.thirteen)).
Proof. apply selection_bound. lia. Defined.

Lemma round_robin_fairness_witness :
  select_top_articles Samples.thirteen 5
  = [ Samples.art "a1" Samples.cat_a; Samples.art "b1" Samples.cat_b;
      Samples.art "c1" Samples.cat_c; Samples.art "a2" Samples.cat_a;
      Samples.art "b2" Samples.cat_b ].
Proof.
  refine (proj1 (round_robin_fairness Samples.thirteen
            Samples.cat_a Samples.cat_b Samples.cat_c
            (Samples.art "a1" Samples.cat_a) (Samples.art "a2" Samples.cat_a)
            (Samples.art "b1" Samples.cat_b) (Samples.art "b2" Samples.cat_b)
            (Samples.art "c1" Samples.cat_c)
            ((λ u, Samples.art u Samples.cat_a)
               <$> ["a3"; "a4"; "a5"; "a6"; "a7"; "a8"; "a9"; "a10"])
            _ _ _ _ _)).
  all: vm_compute; reflexivity.
Defined.

Lemma fairness_floor_witness :
  ∃ b, b ∈ select_top_articles Samples.thirteen 5
       ∧ get_category b = Samples.cat_c.
Proof.
  refine (proj1 (fairness_floor Samples.thirteen 5 _ _)
            (Samples.art "c1" Samples.cat_c) _).
  - vm_compute. reflexivity.
  - vm_compute. discriminate.
  - do 4 right. left.
Defined.

Example classify_two_batches :
  category <$> (classify_articles Samples.json_loads (Some "key") Samples.service
                  (Samples.twenty_one ++ [Samples.mk "x" "2024-03-02" None;
                                          Samples.mk "y" "2024-03-02" None])).1
  = replicate 20 (Some FALLBACK) ++ [Some "研究・論文"; Some FALLBACK; Some FALLBACK].
Proof. vm_compute. reflexivity. Qed.

Lemma classification_fallback_isolation_witness :
  batch_at 20 (classify_articles Samples.json_loads (Some "key") Samples.service
                 Samples.twenty_one).1
  = classify_batch Samples.json_loads
      (Samples.service 20 (batch_at 20 Samples.twenty_one))
      (batch_at 20 Samples.twenty_one).
Proof.
  refine (proj1 (classification_fallback_isolation Samples.json_loads (Some "key")
            Samples.service "key" _ _ Samples.twenty_one 20 _)).
  - reflexivity.
  - discriminate.
  - vm_compute. right. left.
Defined.

(** ** Archive store *)

Lemma midnight_to_date (t : Z) :
  midnight (to_date t) ≤ t < midnight (to_date t) + DAY_US.
Proof.
  unfold midnight, to_date.
  pose proof (Z.mod_pos_bound t DAY_US eq_refl).
  pose proof (Z.div_mod t DAY_US). unfold DAY_US in *. lia.
Qed.

Lemma midnight_sub (d k : Z) : midnight (d - k) = midnight d - timedelta_days k.
Proof. unfold midnight, timedelta_days. lia. Qed.

Section ArchiveProperties.

Variable strptime : string → option Z.
Variable json_loads : string → option json.
Variable cutoff : Z.

Abbreviation load_loop := (load_loop strptime json_loads cutoff).

(** The file is older than the horizon: it is deleted. *)
Definition expired (path : string) : Prop :=
  ∃ d, strptime (stem path) = Some d ∧ midnight d < cutoff.

(** The file is within the horizon: it is read. *)
Definition kept (path : string) : Prop :=
  ∃ d, strptime (stem path) = Some d ∧ ¬ midnight d < cutoff.

(** One iteration, by cases. *)
Lemma load_loop_cons path rest dir acc :
  load_loop (path :: rest) dir acc
  = match strptime (stem path) with
    | None => load_loop rest dir acc
    | Some d =>
        if decide (midnight d < cutoff)
        then load_loop rest (delete path dir) acc
        else match dir !! path with
             | None => (dir, Raise OSError)
             | Some text =>
                 match json_loads text with
                 | None => (dir, Raise JSONDecodeError)
                 | Some v => load_loop rest dir (<[stem path := v]> acc)
                 end
             end
    end.
Proof. done. Qed.

(** Only expired files of the listing leave the directory. *)
Lemma load_loop_dir paths dir acc p :
  ¬ (p ∈ paths ∧ expired p) → (load_loop paths dir acc).1 !! p = dir !! p.
Proof.
  revert dir acc. induction paths as [|path rest IH]; intros dir acc Hp; [done|].
  assert (¬ (p ∈ rest ∧ expired p)) as Hrest.
  { intros [? ?]. apply Hp. split; [by right|done]. }
  rewrite load_loop_cons.
  destruct (strptime (stem path)) as [d|] eqn:Hd; [|by apply IH].
  case_decide as Hexp.
  - rewrite IH by done. apply lookup_delete_ne. intros ->.
    apply Hp. split; [left|]. by exists d.
  - destruct (dir !! path) as [text|]; [|done].
    destruct (json_loads text); [by apply IH|done].
Qed.

Lemma load_loop_dir_None paths dir acc p :
  dir !! p = None → (load_loop paths dir acc).1 !! p = None.
Proof.
  revert dir acc. induction paths as [|path rest IH]; intros dir acc Hp; [done|].
  rewrite load_loop_cons.
  destruct (strptime (stem path)) as [d|]; [|by apply IH].
  case_decide.
  - apply IH. rewrite lookup_delete. by case_decide.
  - destruct (dir !! path) as [text|]; [|done].
    destruct (json_loads text); [by apply IH|done].
Qed.

(** When the call returns, the expired files of the listing are gone. *)
Lemma load_loop_deleted paths dir acc m p :
  (load_loop paths dir acc).2 = Ok m →
  p ∈ paths → expired p → (load_loop paths dir acc).1 !! p = None.
Proof.
  revert dir acc. induction paths as [|path rest IH]; intros dir acc Hok Hin Hexp.
  - by apply elem_of_nil in Hin.
  - rewrite load_loop_cons in *.
    destruct (decide (p = path)) as [->|Hne].
    + destruct Hexp as (d & Hd & Hlt). rewrite Hd in *.
      rewrite decide_True in * by done.
      apply load_loop_dir_None, lookup_delete_eq.
    + apply elem_of_cons in Hin as [?|Hin]; [done|].
      destruct (strptime (stem path)) as [d|]; [|by apply IH].
      case_decide; [by apply IH|].
      destruct (dir !! path) as [text|]; [|done].
      destruct (json_loads text); [by apply IH|done].
Qed.

(** Every entry of the returned mapping was there before or is the
    parsed text of a kept file of the listing. *)
Lemma load_loop_sound paths dir acc m key v :
  (load_loop paths dir acc).2 = Ok m →
  m !! key = Some v →
  acc !! key = Some v
  ∨ ∃ p text, p ∈ paths ∧ kept p ∧ stem p = key
              ∧ dir !! p = Some text ∧ json_loads text = Some v.
Proof.
  revert dir acc. induction paths as [|path rest IH]; intros dir acc Hok Hm.
  - simpl in Hok. injection Hok as <-. by left.
  - rewrite load_loop_cons in Hok.
    assert (∀ dir0 : gmap string string,
      (∃ p text, p ∈ rest ∧ kept p ∧ stem p = key
                 ∧ dir0 !! p = Some text ∧ json_loads text = Some v) →
      (∀ p text, dir0 !! p = Some text → dir !! p = Some text) →
      ∃ p text, p ∈ path :: rest ∧ kept p ∧ stem p = key
                ∧ dir !! p = Some text ∧ json_loads text = Some v) as Hlift.
    { intros dir0 (p & text & ? & ? & ? & ? & ?) Hsub.
      exists p, text. split; [by right|]. eauto. }
    destruct (strptime (stem path)) as [d|] eqn:Hd.
    2:{ destruct (IH _ _ Hok Hm) as [?|?]; [by left|right]. eapply Hlift; eauto. }
    case_decide as Hexp.
    { destruct (IH _ _ Hok Hm) as [?|?]; [by left|right]. eapply Hlift; [done|].
      intros p text [_ ?]%lookup_delete_Some. done. }
    destruct (dir !! path) as [text|] eqn:Htext; [|done].
    destruct (json_loads text) as [v0|] eqn:Hv0; [|done].
    destruct (IH _ _ Hok Hm) as [Hacc|?]; [|right; eapply Hlift; eauto].
    destruct (decide (stem path = key)) as [Hkey|Hkey].
    + rewrite Hkey, lookup_insert_eq in Hacc. injection Hacc as ->.
      right. exists path, text. split; [left|].
      split; [by exists d|]. done.
    + rewrite lookup_insert_ne in Hacc by done. by left.
Qed.

(** A key that no kept file of the listing writes keeps its entry. *)
Lemma load_loop_frame paths dir acc m key :
  (load_loop paths dir acc).2 = Ok m →
  (∀ p, p ∈ paths → kept p → stem p ≠ key) →
  m !! key = acc !! key.
Proof.
  revert dir acc. induction paths as [|path rest IH]; intros dir acc Hok Hkey.
  - simpl in Hok. by injection Hok as <-.
  - rewrite load_loop_cons in Hok.
    assert (∀ p, p ∈ rest → kept p → stem p ≠ key) as Hrest.
    { intros p Hp. apply Hkey. by right. }
    destruct (strptime (stem path)) as [d|] eqn:Hd; [|by eapply IH].
    case_decide as Hexp; [by eapply IH|].
    destruct (dir !! path) as [text|]; [|done].
    destruct (json_loads text) as [v0|]; [|done].
    rewrite (IH _ _ Hok Hrest). apply lookup_insert_ne.
    apply Hkey; [left|]. by exists d.
Qed.

(** A kept file of the listing whose stem is its own is in the returned
    mapping, with its text as parsed. *)
Lemma load_loop_complete paths dir acc m p :
  (load_loop paths dir acc).2 = Ok m →
  NoDup paths → p ∈ paths → kept p →
  (∀ p', p' ∈ paths → stem p' = stem p → p' = p) →
  ∃ text v, dir !! p = Some text ∧ json_loads text = Some v
            ∧ m !! stem p = Some v.
Proof.
  revert dir acc. induction paths as [|path rest IH];
    intros dir acc Hok Hnd Hin Hkept Huniq.
  - by apply elem_of_nil in Hin.
  - rewrite load_loop_cons in Hok.
    apply NoDup_cons in Hnd as [Hfresh Hnd].
    assert (∀ p', p' ∈ rest → stem p' = stem p → p' = p) as Huniq'.
    { intros p' Hp'. apply Huniq. by right. }
    destruct (decide (p = path)) as [->|Hne].
    + destruct Hkept as (d & Hd & Hlt). rewrite Hd in Hok.
      rewrite decide_False in Hok by done.
      destruct (dir !! path) as [text|]; [|done].
      destruct (json_loads text) as [v|] eqn:Hv; [|done].
      exists text, v. split; [done|]. split; [done|].
      rewrite (load_loop_frame _ _ _ _ _ Hok), lookup_insert_eq; [done|].
      intros p' Hp' _ Hstem. apply Huniq' in Hstem; [|done]. by subst.
    + apply elem_of_cons in Hin as [?|Hin]; [done|].
      destruct (strptime (stem path)) as [d|]; [|by eapply IH].
      case_decide.
      { destruct (IH _ _ Hok Hnd Hin Hkept Huniq') as (text & v & Ht & ?).
        apply lookup_delete_Some in Ht as [_ Ht]. eauto. }
      destruct (dir !! path) as [text|]; [|done].
      destruct (json_loads text); [by eapply IH|done].
Qed.

(** A kept file of the listing that does not parse aborts the call. *)
Lemma load_loop_corrupt paths dir acc p text :
  NoDup paths → (∀ q, q ∈ paths → is_Some (dir !! q)) →
  p ∈ paths → kept p → dir !! p = Some text → json_loads text = None →
  (load_loop paths dir acc).2 = Raise JSONDecodeError.
Proof.
  revert dir acc. induction paths as [|path rest IH];
    intros dir acc Hnd Hpresent Hin Hkept Htext Hbad.
  - by apply elem_of_nil in Hin.
  - rewrite load_loop_cons.
    apply NoDup_cons in Hnd as [Hfresh Hnd].
    assert (∀ q, q ∈ rest → is_Some (dir !! q)) as Hpresent'.
    { intros q Hq. apply Hpresent. by right. }
    destruct (decide (p = path)) as [->|Hne].
    + destruct Hkept as (d & Hd & Hlt). rewrite Hd, decide_False by done.
      by rewrite Htext, Hbad.
    + apply elem_of_cons in Hin as [?|Hin]; [done|].
      destruct (strptime (stem path)) as [d|]; [|by apply IH].
      case_decide.
      { apply IH; [done| |done|done| |done].
        - intros q Hq. rewrite lookup_delete_ne; [by apply Hpresent'|].
          by intros ->.
        - by rewrite lookup_delete_ne. }
      destruct (Hpresent path) as [text0 ->]; [left|].
      destruct (json_loads text0); [by apply IH|done].
Qed.

(** When every kept file of the listing parses, the call returns. *)
Lemma load_loop_total paths dir acc :
  NoDup paths → (∀ q, q ∈ paths → is_Some (dir !! q)) →
  (∀ p text, p ∈ paths → kept p → dir !! p = Some text →
             is_Some (json_loads text)) →
  ∃ m, (load_loop paths dir acc).2 = Ok m.
Proof.
  revert dir acc. induction paths as [|path rest IH];
    intros dir acc Hnd Hpresent Hgood.
  - by eexists.
  - rewrite load_loop_cons.
    apply NoDup_cons in Hnd as [Hfresh Hnd].
    assert (∀ q, q ∈ rest → is_Some (dir !! q)) as Hpresent'.
    { intros q Hq. apply Hpresent. by right. }
    assert (∀ p text, p ∈ rest → kept p → dir !! p = Some text →
                      is_Some (json_loads text)) as Hgood'.
    { intros p text Hp. apply Hgood. by right. }
    destruct (strptime (stem path)) as [d|] eqn:Hd; [|by apply IH].
    case_decide as Hexp.
    { apply IH; [done| |].
      - intros q Hq. rewrite lookup_delete_ne; [by apply Hpresent'|].
        by intros ->.
      - intros p text Hp Hk [_ Ht]%lookup_delete_Some. by eapply Hgood'. }
    destruct (Hpresent path) as [text0 Ht0]; [left|]. rewrite Ht0.
    destruct (Hgood path text0) as [v ->]; [left|by exists d|done|].
    by apply IH.
Qed.

End ArchiveProperties.

Lemma glob_json_elem dir name :
  name ∈ glob_json dir ↔ is_json name ∧ is_Some (dir !! name).
Proof.
  unfold glob_json. rewrite merge_sort_Permutation, list_elem_of_filter.
  by rewrite elem_of_elements, elem_of_dom.
Qed.

Lemma glob_json_NoDup dir : NoDup (glob_json dir).
Proof.
  unfold glob_json. rewrite merge_sort_Permutation.
  apply NoDup_filter, NoDup_elements.
Qed.

Section LoadRecent.

Variable strptime : string → option Z.
Variable json_loads : string → option json.
Variable now : Z.

Abbreviation horizon := (now - timedelta_days KEEP_DAYS).
Abbreviation load := (load_recent_articles strptime json_loads now).

Lemma load_dir_other dir name :
  ¬ (is_json name ∧ is_Some (dir !! name) ∧ expired strptime horizon name) →
  (load dir).1 !! name = dir !! name.
Proof.
  intros H. unfold load_recent_articles. apply load_loop_dir.
  intros [[? ?]%glob_json_elem ?]. by apply H.
Qed.

Lemma load_excluded dir m name :
  (load dir).2 = Ok m →
  (∀ d, strptime (stem name) = Some d → midnight d < horizon) →
  m !! stem name = None.
Proof.
  intros Hok Hd. destruct (m !! stem name) as [v|] eqn:Hm; [|done].
  destruct (load_loop_sound _ _ _ _ _ _ _ _ _ Hok Hm)
    as [Hacc|(p & text & _ & (d & Hp & Hkept) & Hstem & _)]; [done|].
  rewrite Hstem in Hp. by apply Hd in Hp.
Qed.

(** The files of the retention horizon, at any time of day. *)
Lemma horizon_today_kept : ¬ midnight (to_date now) < horizon.
Proof.
  pose proof (midnight_to_date now).
  unfold timedelta_days, KEEP_DAYS, DAY_US in *. lia.
Qed.

Lemma horizon_six_days_kept : ¬ midnight (to_date now - 6) < horizon.
Proof.
  pose proof (midnight_to_date now). rewrite midnight_sub.
  unfold timedelta_days, KEEP_DAYS, DAY_US in *. lia.
Qed.

Lemma horizon_eight_days_expired : midnight (to_date now - 8) < horizon.
Proof.
  pose proof (midnight_to_date now). rewrite midnight_sub.
  unfold timedelta_days, KEEP_DAYS, DAY_US in *. lia.
Qed.

(** C5. When [load_recent_articles] returns, a date-file older than
    [now - 7 days] is gone from the directory and its date is not a key of
    the mapping; a date-file within the horizon is still there and, its
    stem being its own, the mapping holds its parsed text under its date.
    With exactly three files, dated today, six and eight days ago, the
    first two parsing, the call returns the first two and leaves the
    directory without the third. *)
Theorem retention_pruning :
  (∀ dir dir' m,
     load dir = (dir', Ok m) →
     ∀ name d,
       is_Some (dir !! name) → is_json name → strptime (stem name) = Some d →
       (midnight d < horizon → dir' !! name = None ∧ m !! stem name = None)
       ∧ (¬ midnight d < horizon →
          dir' !! name = dir !! name
          ∧ ((∀ other, is_Some (dir !! other) → is_json other →
                       stem other = stem name → other = name) →
             ∃ text v, dir !! name = Some text ∧ json_loads text = Some v
                       ∧ m !! stem name = Some v)))
  ∧ (∀ n0 n6 n8 t0 t6 t8 v0 v6,
       is_json n0 → is_json n6 → is_json n8 →
       strptime (stem n0) = Some (to_date now) →
       strptime (stem n6) = Some (to_date now - 6) →
       strptime (stem n8) = Some (to_date now - 8) →
       json_loads t0 = Some v0 → json_loads t6 = Some v6 →
       load (<[n0 := t0]> (<[n6 := t6]> {[n8 := t8]}))
       = (<[n0 := t0]> {[n6 := t6]},
          Ok (<[stem n0 := v0]> {[stem n6 := v6]}))).
Proof.
  assert (∀ dir dir' m,
     load dir = (dir', Ok m) →
     ∀ name d,
       is_Some (dir !! name) → is_json name → strptime (stem name) = Some d →
       (midnight d < horizon → dir' !! name = None ∧ m !! stem name = None)
       ∧ (¬ midnight d < horizon →
          dir' !! name = dir !! name
          ∧ ((∀ other, is_Some (dir !! other) → is_json other →
                       stem other = stem name → other = name) →
             ∃ text v, dir !! name = Some text ∧ json_loads text = Some v
                       ∧ m !! stem name = Some v))) as Hgeneral.
  { intros dir dir' m Hload name d Hname Hjson Hd.
    assert ((load dir).1 = dir' ∧ (load dir).2 = Ok m) as [Hdir Hok]
      by (by rewrite Hload).
    assert (name ∈ glob_json dir) as Hin by (by apply glob_json_elem).
    split.
    - intros Hexp. split.
      + rewrite <- Hdir. eapply load_loop_deleted; [done..|]. by exists d.
      + eapply load_excluded; [done|]. intros d' Hd'. congruence.
    - intros Hkept. split.
      + rewrite <- Hdir. apply load_dir_other.
        intros (_ & _ & d' & Hd' & ?). congruence.
      + intros Huniq.
        eapply load_loop_complete; [done|apply glob_json_NoDup|done| |].
        * by exists d.
        * intros p [? ?]%glob_json_elem. by apply Huniq. }
  split; [done|].
  intros n0 n6 n8 t0 t6 t8 v0 v6 J0 J6 J8 D0 D6 D8 P0 P6.
  pose proof horizon_today_kept as K0.
  pose proof horizon_six_days_kept as K6.
  pose proof horizon_eight_days_expired as E8.
  assert (stem n0 ≠ stem n6 ∧ stem n0 ≠ stem n8 ∧ stem n6 ≠ stem n8)
    as (S06 & S08 & S68).
  { repeat split; intros Heq; rewrite Heq in *; simplify_eq; lia. }
  assert (n0 ≠ n6 ∧ n0 ≠ n8 ∧ n6 ≠ n8) as (N06 & N08 & N68)
    by (repeat split; congruence).
  set (dir := <[n0:=t0]> (<[n6:=t6]> {[n8:=t8]})).
  assert (dir !! n0 = Some t0 ∧ dir !! n6 = Some t6 ∧ dir !! n8 = Some t8)
    as (L0 & L6 & L8).
  { subst dir. repeat split; by simplify_map_eq. }
  assert (∀ name, is_Some (dir !! name) → name = n0 ∨ name = n6 ∨ name = n8)
    as Hnames.
  { intros name [text Ht]. subst dir.
    destruct (decide (name = n0)); [by left|].
    destruct (decide (name = n6)); [by right; left|].
    destruct (decide (name = n8)); [by right; right|].
    by simplify_map_eq. }
  destruct (load_loop_total strptime json_loads horizon (glob_json dir) dir ∅)
    as [m Hok].
  { apply glob_json_NoDup. }
  { intros q [_ ?]%glob_json_elem. done. }
  { intros p text [_ Hp]%glob_json_elem (d & Hd & Hkept) Ht.
    destruct (Hnames p Hp) as [-> | [-> | ->]]; simplify_eq; eauto. }
  destruct (load dir) as [dir' res] eqn:Hload.
  assert (res = Ok m) as -> by (unfold load_recent_articles in Hload; by rewrite Hload in Hok).
  pose proof (Hgeneral dir dir' m Hload) as Hg.
  assert (∀ other n, is_Some (dir !! other) → n = n0 ∨ n = n6 →
                     stem other = stem n → other = n) as Huniq.
  { intros other n Ho Hn Hs.
    destruct (Hnames other Ho) as [-> | [-> | ->]]; destruct Hn as [-> | ->];
      congruence. }
  destruct (Hg n0 _ (mk_is_Some _ _ L0) J0 D0) as [_ G0].
  destruct (G0 K0) as [G0d G0m].
  destruct G0m as (? & ? & ? & ? & M0); [intros; apply Huniq; auto|].
  destruct (Hg n6 _ (mk_is_Some _ _ L6) J6 D6) as [_ G6].
  destruct (G6 K6) as [G6d G6m].
  destruct G6m as (? & ? & ? & ? & M6); [intros; apply Huniq; auto|].
  destruct (Hg n8 _ (mk_is_Some _ _ L8) J8 D8) as [G8 _].
  destruct (G8 E8) as [G8d G8m].
  simplify_eq. f_equal; [|f_equal].
  - apply map_eq. intros name.
    destruct (decide (name = n0)) as [->|];
      [by rewrite G0d, L0, lookup_insert_eq|].
    destruct (decide (name = n6)) as [->|];
      [by rewrite G6d, L6, lookup_insert_ne, lookup_singleton_eq|].
    assert (<[n0:=t0]> ({[n6 := t6]} : gmap string string) !! name = None) as ->.
    { by rewrite lookup_insert_ne, lookup_singleton_ne. }
    destruct (decide (name = n8)) as [->|]; [done|].
    assert (dir' = (load dir).1) as -> by (by rewrite Hload).
    rewrite load_dir_other.
    + subst dir. by rewrite !lookup_insert_ne, lookup_singleton_ne.
    + intros (_ & Hsome & _). destruct (Hnames _ Hsome) as [?|[?|?]]; done.
  - apply map_eq. intros key.
    destruct (decide (key = stem n0)) as [->|];
      [by rewrite M0, lookup_insert_eq|].
    destruct (decide (key = stem n6)) as [->|];
      [by rewrite M6, lookup_insert_ne, lookup_singleton_eq|].
    rewrite lookup_insert_ne, lookup_singleton_ne by done.
    destruct (m !! key) as [v|] eqn:Hm; [exfalso|done].
    destruct (load_loop_sound _ _ _ _ _ _ _ _ _ Hok Hm)
      as [Hacc|(p & text & [_ Hp]%glob_json_elem & (d & Hd & Hkept) & Hstem & _)];
      [done|].
    destruct (Hnames p Hp) as [-> | [-> | ->]]; simplify_eq; done.
Qed.

End LoadRecent.

(** The load aborts on a kept file that does not parse, and leaves it. *)
Lemma load_corrupt strptime json_loads now dir name text d :
  dir !! name = Some text → is_json name →
  strptime (stem name) = Some d →
  ¬ midnight d < now - timedelta_days KEEP_DAYS →
  json_loads text = None →
  (load_recent_articles strptime json_loads now dir).2 = Raise JSONDecodeError
  ∧ (load_recent_articles strptime json_loads now dir).1 !! name = Some text.
Proof.
  intros Hname Hjson Hd Hkept Hbad. split.
  - unfold load_recent_articles.
    eapply load_loop_corrupt; [apply glob_json_NoDup| | | |done|done].
    + by intros q [_ ?]%glob_json_elem.
    + apply glob_json_elem. eauto.
    + by exists d.
  - rewrite load_dir_other; [done|]. intros (_ & _ & d' & Hd' & ?). congruence.
Qed.

(** C6. A date-file within the horizon that holds unparseable JSON makes
    [load_recent_articles] raise: no mapping is returned and the file stays;
    a run that has articles to publish and meets such a file (other than
    today's, which it has just rewritten) ends in that exception without
    regenerating the output.  A file whose name is not a date is left in
    the directory and has no entry in the mapping. *)
Theorem archive_corruption_fatal
    (strptime : string → option Z) (strftime : Z → string)
    (json_loads : string → option json) (json_dumps : list article → string)
    (fetch_rss : source_desc → list article) (api_key : option string)
    (messages_create : nat → list article → api_response)
    (generate_html : gmap string json → string → string) (stamp : Z → string)
    (now : Z) :
  let load := load_recent_articles strptime json_loads now in
  let horizon := now - timedelta_days KEEP_DAYS in
  let run := main strptime strftime json_loads json_dumps fetch_rss api_key
               messages_create generate_html stamp now in
  (∀ dir name text d,
     dir !! name = Some text → is_json name →
     strptime (stem name) = Some d → ¬ midnight d < horizon →
     json_loads text = None →
     (load dir).2 = Raise JSONDecodeError ∧ (load dir).1 !! name = Some text)
  ∧ (∀ w sources articles name text d,
       sources_file w = Ok sources →
       collect_articles strptime strftime fetch_rss now sources = Ok articles →
       articles ≠ [] →
       archive w !! name = Some text → is_json name →
       name ≠ TODAY strftime now +:+ JSON_SUFFIX →
       strptime (stem name) = Some d → ¬ midnight d < horizon →
       json_loads text = None →
       (run w).2 = Raise JSONDecodeError ∧ output (run w).1 = output w)
  ∧ (∀ dir name,
       strptime (stem name) = None →
       (load dir).1 !! name = dir !! name
       ∧ ∀ m, (load dir).2 = Ok m → m !! stem name = None).
Proof.
  intros load horizon run. split; [|split].
  - intros dir name text d. apply load_corrupt.
  - intros w sources articles name text d Hsrc Hcollect Hne Hname Hjson Htoday
      Hd Hkept Hbad.
    subst run horizon. unfold main. rewrite Hsrc, Hcollect, decide_False by done.
    unfold publish.
    destruct (classify_articles json_loads api_key messages_create articles)
      as [classified calls].
    cbn [archive sources_file output api_calls].
    set (dir := save_articles json_dumps _ _ (archive w)).
    assert (dir !! name = Some text) as Hdir.
    { subst dir. unfold save_articles. by rewrite lookup_insert_ne. }
    pose proof (load_corrupt strptime json_loads now dir name text d
                  Hdir Hjson Hd Hkept Hbad) as [Hraise _].
    destruct (load_recent_articles strptime json_loads now dir) as [dir' loaded].
    simpl in Hraise. subst loaded. done.
  - intros dir name Hstray. split.
    + apply load_dir_other. intros (_ & _ & d & Hd & _). congruence.
    + intros m Hok. eapply load_excluded; [done|]. intros d Hd. congruence.
Qed.

(** C8. When collection and filtering yield no article, the run ends
    without error and leaves everything as it was: no batch is sent to the
    classifier, the archive and the output file are untouched. *)
Theorem zero_articles_early_exit
    (strptime : string → option Z) (strftime : Z → string)
    (json_loads : string → option json) (json_dumps : list article → string)
    (fetch_rss : source_desc → list article) (api_key : option string)
    (messages_create : nat → list article → api_response)
    (generate_html : gmap string json → string → string) (stamp : Z → string)
    (now : Z) (w : world) (sources : list source_desc) :
  sources_file w = Ok sources →
  collect_articles strptime strftime fetch_rss now sources = Ok [] →
  let run := main strptime strftime json_loads json_dumps fetch_rss api_key
               messages_create generate_html stamp now w in
  run = (w, Ok ())
  ∧ api_calls run.1 = api_calls w
  ∧ archive run.1 = archive w
  ∧ output run.1 = output w.
Proof.
  intros Hsrc Hcollect run.
  assert (run = (w, Ok ())) as ->; [|done].
  subst run. unfold main. by rewrite Hsrc, Hcollect.
Qed.

Example load_sample_archive :
  load_recent_articles Calendar.strptime_ymd Samples.json_loads Samples.now0
    (<["notes.json" := "[]"]> Samples.archive0)
  = (<["notes.json" := "[]"]> (delete "2024-02-23.json" Samples.archive0),
     Ok (<["2024-03-02" := JArray [JString "today"]]>
           {["2024-02-25" := JArray [JString "six days ago"]]})).
Proof. vm_compute. reflexivity. Qed.

Example load_corrupt_archive :
  load_recent_articles Calendar.strptime_ymd Samples.json_loads Samples.now0
    Samples.archive_corrupt
  = (delete "2024-02-23.json" Samples.archive_corrupt, Raise JSONDecodeError).
Proof. vm_compute. reflexivity. Qed.

Lemma retention_pruning_witness :
  load_recent_articles Calendar.strptime_ymd Samples.json_loads Samples.now0
    Samples.archive0
  = (delete "2024-02-23.json" Samples.archive0,
     Ok (<["2024-03-02" := JArray [JString "today"]]>
           {["2024-02-25" := JArray [JString "six days ago"]]})).
Proof.
  etrans;
    [refine (proj2 (retention_pruning Calendar.strptime_ymd Samples.json_loads
               Samples.now0)
               "2024-03-02.json" "2024-02-25.json" "2024-02-23.json"
               _ _ _ (JArray [JString "today"]) (JArray [JString "six days ago"])
               _ _ _ _ _ _ _ _)|].
  1-3: vm_compute; exact I.
  1-5: vm_compute; reflexivity.
  vm_compute. reflexivity.
Defined.

Lemma archive_corruption_fatal_witness :
  (load_recent_articles Calendar.strptime_ymd Samples.json_loads Samples.now0
     Samples.archive_corrupt).2
  = Raise JSONDecodeError.
Proof.
  refine (proj1 (proj1 (archive_corruption_fatal Calendar.strptime_ymd
            Calendar.strftime_ymd Samples.json_loads (λ _, "[]") Samples.stale_feed
            None Samples.service (λ _ _, "<html></html>") (λ _, "stamp") Samples.now0)
            Samples.archive_corrupt "2024-03-01.json"
            ("[" +:+ Samples.quoted "yester") 738946 _ _ _ _ _)).
  - vm_compute. reflexivity.
  - vm_compute. exact I.
  - vm_compute. reflexivity.
  - vm_compute. discriminate.
  - vm_compute. reflexivity.
Defined.

Lemma zero_articles_early_exit_witness :
  main Calendar.strptime_ymd Calendar.strftime_ymd Samples.json_loads (λ _, "[]")
    Samples.stale_feed (Some "key") Samples.service (λ _ _, "<html></html>")
    (λ _, "stamp") Samples.now0 Samples.world0
  = (Samples.world0, Ok ()).
Proof.
  refine (proj1 (zero_articles_early_exit Calendar.strptime_ymd Calendar.strftime_ymd
            Samples.json_loads (λ _, "[]") Samples.stale_feed (Some "key")
            Samples.service (λ _ _, "<html></html>") (λ _, "stamp") Samples.now0
            Samples.world0 [Source "feed" "https://example.org/rss" "en"] _ _)).
  - reflexivity.
  - vm_compute. reflexivity.
Defined.

(** * Further properties *)

(** ** Recency and dedup filter: what comes out, and when it raises *)

Section FilterOutput.

Variable strptime : string → option Z.
Variable strftime : Z → string.
Variable now : Z.

Abbreviation today := (to_date now).
Abbreviation primary := (primary_window strftime now).
Abbreviation since_cutoff := (since strptime).
Abbreviation window := (recent_window strptime strftime now).
Abbreviation run_filter := (recency_dedup_filter strptime strftime now).

Lemma recent_window_sublist all_articles recent :
  window all_articles = Ok recent → recent `sublist_of` all_articles.
Proof.
  unfold recent_window, primary_window. case_decide.
  - destruct (strptime _) as [cutoff|]; simpl; [|done].
    by intros [? _]%since_Ok_inv.
  - intros [= <-]. apply sublist_filter.
Qed.

(** An article that survives the dedup loop is the first of the list with
    its URL. *)
Lemma dedup_urls_first seen l b :
  b ∈ dedup_urls seen l →
  (url b ∉ seen) ∧ ∃ l1 l2, l = l1 ++ b :: l2 ∧ url b ∉ url <$> l1.
Proof.
  revert seen. induction l as [|a l IH]; intros seen Hb; simpl in Hb.
  - by apply elem_of_nil in Hb.
  - case_decide as Hseen.
    + destruct (IH _ Hb) as (Hfresh & l1 & l2 & -> & Hl1). split; [done|].
      exists (a :: l1), l2. split; [done|].
      rewrite fmap_cons, not_elem_of_cons. split; [congruence|done].
    + apply elem_of_cons in Hb as [->|Hb].
      * split; [done|]. exists [], l. split; [done|]. apply not_elem_of_nil.
      * destruct (IH _ Hb) as (Hfresh & l1 & l2 & -> & Hl1).
        apply not_elem_of_union in Hfresh as [Hne%not_elem_of_singleton Hfresh].
        split; [done|]. exists (a :: l1), l2. split; [done|].
        rewrite fmap_cons, not_elem_of_cons. done.
Qed.

Lemma filter_output_unique_aux (all_articles out : list article) :
  run_filter all_articles = Ok out →
  NoDup (url <$> out) ∧ out `sublist_of` all_articles.
Proof.
  unfold recency_dedup_filter.
  destruct (window all_articles) as [recent|] eqn:Hrecent; simpl; [|done].
  intros [= <-]. split; [apply dedup_urls_NoDup|].
  etrans; [apply dedup_urls_sublist|]. by apply recent_window_sublist.
Qed.

(** X1. Whatever the filter returns is a sublist of its input with pairwise
    distinct URLs; every URL of the window is represented, by the first
    article of the window that carries it. *)
Theorem filter_output_unique (all_articles out : list article) :
  run_filter all_articles = Ok out →
  NoDup (url <$> out)
  ∧ out `sublist_of` all_articles
  ∧ ∃ recent,
      window all_articles = Ok recent
      ∧ (∀ a, a ∈ recent → ∃ b, b ∈ out ∧ url b = url a)
      ∧ (∀ b, b ∈ out → ∃ l1 l2, recent = l1 ++ b :: l2 ∧ url b ∉ url <$> l1).
Proof.
  unfold recency_dedup_filter.
  destruct (window all_articles) as [recent|] eqn:Hrecent; simpl; [|done].
  intros [= <-]. split; [apply dedup_urls_NoDup|]. split.
  - etrans; [apply dedup_urls_sublist|]. by apply recent_window_sublist.
  - exists recent. split; [done|]. split.
    + intros a Ha. by apply dedup_urls_complete.
    + intros b Hb. by apply dedup_urls_first in Hb as [_ ?].
Qed.

Lemma since_raise cutoff l a :
  a ∈ l → strptime (date a) = None → since_cutoff cutoff l = Raise ValueError.
Proof.
  induction l as [|x l IH]; intros Ha Hbad.
  - by apply elem_of_nil in Ha.
  - simpl. apply elem_of_cons in Ha as [<-|Ha].
    + by rewrite Hbad.
    + destruct (strptime (date x)); simpl; [|done]. by rewrite IH.
Qed.

(** X2. Dates are parsed only when the window is widened: with fewer than
    five primary-window articles, one article with a malformed date anywhere
    in the input makes the filter raise [ValueError]; with five or more, the
    filter returns whatever the other dates look like. *)
Theorem filter_value_error
    (Hclock : strptime (strftime (today - 3)) = Some (today - 3))
    (all_articles : list article) :
  ((length (primary all_articles) < 5)%nat →
   (∃ a, a ∈ all_articles ∧ strptime (date a) = None) →
   run_filter all_articles = Raise ValueError)
  ∧ ((5 ≤ length (primary all_articles))%nat →
     run_filter all_articles
     = Ok (dedup_urls ∅ (primary all_articles))).
Proof.
  split.
  - intros Hlt (a & Ha & Hbad).
    unfold recency_dedup_filter.
    rewrite (recent_window_escalation _ _ _ _ (today - 3)) by done.
    by rewrite (since_raise _ _ a).
  - intros Hge. unfold recency_dedup_filter.
    by rewrite recent_window_no_escalation.
Qed.

(** X3. The widened window has no upper bound: an article dated after
    today is dropped when at least five primary-window articles exist, and
    its URL is kept when fewer do. *)
Theorem window_no_upper_bound
    (Hclock0 : strptime (strftime today) = Some today)
    (Hclock1 : strptime (strftime (today - 1)) = Some (today - 1))
    (Hclock3 : strptime (strftime (today - 3)) = Some (today - 3))
    (all_articles : list article) (a : article) (d : Z) :
  a ∈ all_articles → strptime (date a) = Some d → today < d →
  ∀ out, run_filter all_articles = Ok out →
    ((5 ≤ length (primary all_articles))%nat → a ∉ out)
    ∧ ((length (primary all_articles) < 5)%nat →
       ∃ b, b ∈ out ∧ url b = url a).
Proof.
  intros Ha Hd Hfuture out.
  unfold recency_dedup_filter.
  destruct (window all_articles) as [recent|] eqn:Hrecent; simpl; [|done].
  intros [= <-]. split.
  - intros Hge. rewrite recent_window_no_escalation in Hrecent by done.
    injection Hrecent as <-. intros Hin.
    eapply elem_of_sublist in Hin; [|apply dedup_urls_sublist].
    rewrite primary_window_spec in Hin.
    apply list_elem_of_filter in Hin as [[Heq|Heq] _];
      rewrite Heq in Hd; simplify_eq; lia.
  - intros Hlt. rewrite (recent_window_escalation _ _ _ _ (today - 3)) in Hrecent by done.
    apply dedup_urls_complete.
    assert (∀ l r, since_cutoff (today - 3) l = Ok r → a ∈ l → a ∈ r) as Hkeep.
    { induction l as [|x l IH]; intros r Hr Hin; [by apply elem_of_nil in Hin|].
      simpl in Hr.
      destruct (strptime (date x)) as [dx|] eqn:Hx; simpl in Hr; [|done].
      destruct (since_cutoff (today - 3) l) as [tail|]; simpl in Hr; [|done].
      injection Hr as <-. apply elem_of_cons in Hin as [->|Hin].
      - simplify_eq. rewrite decide_True by lia. left.
      - case_decide; [right|]; by apply IH. }
    by eapply Hkeep.
Qed.

(** The filter returns on every list whose dates are well formed. *)
Lemma recency_dedup_filter_total all_articles cutoff :
  strptime (strftime (today - 3)) = Some cutoff →
  (∀ a, a ∈ all_articles → is_Some (strptime (date a))) →
  ∃ out, run_filter all_articles = Ok out.
Proof.
  intros Hclock Hparse. unfold recency_dedup_filter.
  destruct (decide (length (primary all_articles) < 5)%nat).
  - rewrite (recent_window_escalation _ _ _ _ cutoff) by done.
    rewrite since_parsed by done. by eexists.
  - rewrite recent_window_no_escalation by lia. by eexists.
Qed.

End FilterOutput.

(** ** Feed fetcher *)

Lemma length_omap_le {A B} (f : A → option B) (l : list A) :
  (length (omap f l) ≤ length l)%nat.
Proof. induction l as [|x l IH]; csimpl; [done|]. destruct (f x); simpl; lia. Qed.

(** The timestamps an entry carries. *)
Definition entry_stamps (e : feed_entry) : list Z :=
  option_list (published_parsed e) ++ option_list (updated_parsed e).

Section FetcherProperties.

Variable strftime : Z → string.
Variable strip : string → string.
Variable http_get : source_desc → option (list feed_entry).
Variable now : Z.

Abbreviation fetch := (fetch_rss strftime strip http_get now).

Lemma entry_date_cases e :
  entry_date strftime now e = TODAY strftime now
  ∨ ∃ t, t ∈ entry_stamps e ∧ entry_date strftime now e = strftime t
         ∧ strftime t ≠ "".
Proof.
  unfold entry_date, entry_stamps.
  destruct (published_parsed e) as [t|]; [|destruct (updated_parsed e) as [t|]];
    [| |by left]; (case_decide; [by left|right; exists t]);
    (split; [|done]); simpl; set_solver.
Qed.

Lemma fetch_rss_elem src a :
  a ∈ fetch src →
  ∃ entries e, http_get src = Some entries ∧ e ∈ take 30 entries
               ∧ entry_article strftime strip now src e = Some a.
Proof.
  unfold fetch_rss. destruct (http_get src) as [entries|]; [|by intros ?%elem_of_nil].
  intros (e & He & Ha)%list_elem_of_omap. eauto.
Qed.

Lemma fetch_rss_fields (src : source_desc) :
  (http_get src = None → fetch src = [])
  ∧ (length (fetch src) ≤ 30)%nat
  ∧ ∀ a, a ∈ fetch src →
      title a ≠ "" ∧ url a ≠ ""
      ∧ source a = src_name src ∧ lang a = src_lang src ∧ category a = None
      ∧ ∃ entries e,
          http_get src = Some entries ∧ e ∈ take 30 entries
          ∧ title a = strip (default "" (entry_title e))
          ∧ url a = strip (default "" (entry_link e))
          ∧ date a
            = match published_parsed e, updated_parsed e with
              | Some t, _ | None, Some t =>
                  if decide (strftime t = "") then TODAY strftime now else strftime t
              | None, None => TODAY strftime now
              end.
Proof.
  split; [|split].
  - intros H. unfold fetch_rss. by rewrite H.
  - unfold fetch_rss. destruct (http_get src) as [entries|]; simpl; [|lia].
    etrans; [apply length_omap_le|]. rewrite length_take. lia.
  - intros a (entries & e & Hget & He & Ha)%fetch_rss_elem.
    unfold entry_article in Ha. case_decide as Hempty; [done|].
    injection Ha as <-. simpl.
    assert (strip (default "" (entry_title e)) ≠ ""
            ∧ strip (default "" (entry_link e)) ≠ "") as [? ?]
      by (split; intros ?; apply Hempty; auto).
    repeat split; try done.
    exists entries, e. repeat split; try done.
    unfold entry_date.
    destruct (published_parsed e), (updated_parsed e); done.
Qed.


(** X4. What [fetch_rss] returns for a source: nothing when the request
    fails, at most thirty articles otherwise, each with a non-empty title
    and link as stripped, the source's name and language, no category, and
    as date the entry's published date, else its updated date, else
    [TODAY]. *)
Theorem fetch_rss_wellformed (src : source_desc) :
  (http_get src = None → fetch src = [])
  ∧ (length (fetch src) ≤ 30)%nat
  ∧ ∀ a, a ∈ fetch src →
      title a ≠ "" ∧ url a ≠ ""
      ∧ source a = src_name src ∧ lang a = src_lang src ∧ category a = None
      ∧ ∃ entries e,
          http_get src = Some entries ∧ e ∈ take 30 entries
          ∧ title a = strip (default "" (entry_title e))
          ∧ url a = strip (default "" (entry_link e))
          ∧ date a
            = match published_parsed e, updated_parsed e with
              | Some t, _ | None, Some t =>
                  if decide (strftime t = "") then TODAY strftime now else strftime t
              | None, None => TODAY strftime now
              end.
Proof. apply fetch_rss_fields. Qed.

End FetcherProperties.

(** X5. Collection over fetched feeds returns: when [strptime] reads back
    what [strftime] writes for today, three days ago and the timestamps of
    the feeds, [collect_articles] raises nothing, and the collected articles
    have distinct URLs, non-empty titles and links, and the name and
    language of one of the sources. *)
Theorem collect_fetched_returns
    (strptime : string → option Z) (strftime : Z → string)
    (strip : string → string)
    (http_get : source_desc → option (list feed_entry))
    (now : Z) (sources : list source_desc) :
  (∀ d, d ∈ to_date now :: (to_date now - 3)
              :: (sources ≫= λ s, default [] (http_get s) ≫= entry_stamps) →
        strptime (strftime d) = Some d) →
  ∃ out,
    collect_articles strptime strftime (fetch_rss strftime strip http_get now)
      now sources = Ok out
    ∧ NoDup (url <$> out)
    ∧ ∀ a, a ∈ out →
        title a ≠ "" ∧ url a ≠ ""
        ∧ ∃ s, s ∈ sources ∧ source a = src_name s ∧ lang a = src_lang s.
Proof.
  intros Hclock. unfold collect_articles.
  set (fetched := sources ≫= fetch_rss strftime strip http_get now).
  assert (∀ a, a ∈ fetched →
            ∃ s, s ∈ sources ∧ a ∈ fetch_rss strftime strip http_get now s) as Hfrom.
  { intros a (s & Ha & Hs)%list_elem_of_bind. eauto. }
  destruct (recency_dedup_filter_total strptime strftime now fetched (to_date now - 3))
    as [out Hout].
  { apply Hclock. right. left. }
  { intros a (s & Hs & Ha)%Hfrom.
    apply fetch_rss_elem in Ha as (entries & e & Hget & He & Ha).
    unfold entry_article in Ha. case_decide; [done|]. injection Ha as <-. simpl.
    destruct (entry_date_cases strftime now e) as [->|(t & Ht & -> & _)].
    - unfold TODAY. rewrite Hclock; [done|left].
    - rewrite Hclock; [done|]. do 2 right.
      apply list_elem_of_bind. exists s. split; [|done].
      rewrite Hget. simpl. apply list_elem_of_bind. exists e. split; [done|].
      eapply elem_of_sublist; [exact He|apply sublist_take]. }
  exists out. split; [done|].
  destruct (filter_output_unique_aux strptime strftime now fetched out Hout)
    as [Hnd Hsub].
  split; [done|]. intros a Ha.
  eapply elem_of_sublist in Ha; [|exact Hsub].
  apply Hfrom in Ha as (s & Hs & Ha).
  destruct (fetch_rss_fields strftime strip http_get now s) as (_ & _ & Hwf).
  destruct (Hwf a Ha) as (? & ? & ? & ? & _). eauto 10.
Qed.

Example fetch_sample_feed :
  fetch_rss Calendar.strftime_ymd Samples.strip Samples.feed Samples.now0
    (Source "Feed A" "https://a/rss" "en")
  = [ Article "First" "https://a/1" "Feed A" "en" "2024-03-01" None;
      Article "Second" "https://a/2" "Feed A" "en" "2024-03-02" None ].
Proof. vm_compute. reflexivity. Qed.

Lemma filter_output_unique_witness :
  NoDup (url <$> Samples.feed_with_duplicates_filtered).
Proof.
  refine (proj1 (filter_output_unique Calendar.strptime_ymd Calendar.strftime_ymd
            Samples.now0 Samples.feed_with_duplicates _ _)).
  vm_compute. reflexivity.
Defined.

Lemma filter_value_error_witness :
  recency_dedup_filter Calendar.strptime_ymd Calendar.strftime_ymd Samples.now0
    (Samples.sparse_feed ++ [Samples.mk "x" "2024/03/02" None])
  = Raise ValueError.
Proof.
  refine (proj1 (filter_value_error Calendar.strptime_ymd Calendar.strftime_ymd
            Samples.now0 _ _) _ _).
  - vm_compute. reflexivity.
  - vm_compute. lia.
  - exists (Samples.mk "x" "2024/03/02" None). split; [|vm_compute; reflexivity].
    apply elem_of_app. right. left.
Defined.

Lemma window_no_upper_bound_witness :
  ∃ b, b ∈ [ Samples.mk "f1" "2024-03-02" None; Samples.mk "f2" "2024-03-09" None;
             Samples.mk "f3" "2024-03-01" None ]
       ∧ url b = "f2".
Proof.
  refine (proj2 (window_no_upper_bound Calendar.strptime_ymd Calendar.strftime_ymd
            Samples.now0 _ _ _ Samples.feed_with_future
            (Samples.mk "f2" "2024-03-09" None) 738954 _ _ _ _ _) _).
  - vm_compute. reflexivity.
  - vm_compute. reflexivity.
  - vm_compute. reflexivity.
  - right. left.
  - vm_compute. reflexivity.
  - vm_compute. reflexivity.
  - vm_compute. reflexivity.
  - vm_compute. lia.
Defined.

Lemma collect_fetched_returns_witness :
  ∃ out,
    collect_articles Calendar.strptime_ymd Calendar.strftime_ymd
      (fetch_rss Calendar.strftime_ymd Samples.strip Samples.feed Samples.now0)
      Samples.now0 Samples.registry = Ok out
    ∧ NoDup (url <$> out)
    ∧ ∀ a, a ∈ out →
        title a ≠ "" ∧ url a ≠ ""
        ∧ ∃ s, s ∈ Samples.registry ∧ source a = src_name s ∧ lang a = src_lang s.
Proof.
  apply collect_fetched_returns.
  intros d Hd. vm_compute in Hd.
  repeat (apply elem_of_cons in Hd as [->|Hd]; [vm_compute; reflexivity|]).
  by apply elem_of_nil in Hd.
Defined.

(** ** Balanced selector: where the selection comes from, and balance *)

Section RoundRobinBalance.

Variable articles : list article.
Variable by_cat : gmap string (list article).
Variable cat_keys : list string.
Variable max_count : Z.

Hypothesis by_cat_groups : ∀ c, default [] (by_cat !! c) = group c articles.
Hypothesis cat_keys_NoDup : NoDup cat_keys.

Abbreviation visit := (rr_visit by_cat max_count).
Abbreviation size c := (length (group c articles)).

Lemma rr_visit_other st cat c :
  cat ≠ c → taken (idx_per_cat (visit st cat)) c = taken (idx_per_cat st) c.
Proof.
  intros Hne.
  destruct (rr_visit_cases articles by_cat max_count by_cat_groups st cat)
    as [(a & _ & _ & ->)|[_ ->]]; [|done].
  simpl. by apply taken_insert_ne.
Qed.

Lemma rr_fold_other ks st c :
  c ∉ ks → taken (idx_per_cat (foldl visit st ks)) c = taken (idx_per_cat st) c.
Proof.
  revert st. induction ks as [|k ks IH]; intros st Hc; [done|].
  apply not_elem_of_cons in Hc as [Hne Hc]. cbn [foldl].
  rewrite IH by done. by apply rr_visit_other.
Qed.

(** Round [r] of the round-robin: a sweep over keys that each stand at
    [min r size] moves each to [min (r + 1) size], unless the cap stops it. *)
Lemma rr_sweep_round ks st r :
  NoDup ks →
  (∀ c, c ∈ ks → taken (idx_per_cat st) c = min r (size c)) →
  let st' := foldl visit st ks in
  (∀ c, c ∈ ks →
     (min r (size c) ≤ taken (idx_per_cat st') c ≤ min (S r) (size c))%nat)
  ∧ (Z.of_nat (length (selected st')) < max_count →
     ∀ c, c ∈ ks → taken (idx_per_cat st') c = min (S r) (size c)).
Proof.
  revert st. induction ks as [|k ks IH]; intros st Hnd Hexact.
  - split; [|intros _]; intros c Hc; by apply elem_of_nil in Hc.
  - apply NoDup_cons in Hnd as [Hk Hnd]. cbn [foldl]. cbn zeta.
    set (st1 := visit st k).
    destruct (IH st1 Hnd) as [Hbounds Hnext].
    { intros c Hc. unfold st1. rewrite rr_visit_other by (by intros ->).
      apply Hexact. by right. }
    pose proof (rr_fold_other ks st1 k Hk) as Hkeep.
    pose proof (Hexact k (list_elem_of_here _ _)) as Hstart.
    destruct (rr_fold_length by_cat max_count ks st1) as [Hlen _].
    assert ((min r (size k) ≤ taken (idx_per_cat st1) k ≤ min (S r) (size k))%nat
            ∧ (Z.of_nat (length (selected st1)) < max_count →
               taken (idx_per_cat st1) k = min (S r) (size k))) as [Hk1 Hk2].
    { unfold st1.
      destruct (rr_visit_cases articles by_cat max_count by_cat_groups st k)
        as [(a & Ha & _ & ->)|[[Hnone|Hcap] ->]]; cbn [selected idx_per_cat].
      - apply lookup_lt_Some in Ha. rewrite taken_insert_eq. lia.
      - apply lookup_ge_None in Hnone. lia.
      - split; [lia|]. intros ?. lia. }
    split.
    + intros c [->|Hc]%elem_of_cons; [by rewrite Hkeep|by apply Hbounds].
    + intros Hlt c [->|Hc]%elem_of_cons; [|by apply Hnext].
      rewrite Hkeep. apply Hk2. lia.
Qed.

(** The loop ends with every key within one round of the others. *)
Lemma rr_loop_balanced idx :
  0 ≤ max_count → (∀ c, taken idx c = 0%nat) →
  ∃ idx' r,
    rr_inv articles max_count (rr_loop by_cat cat_keys max_count [] idx) idx'
    ∧ ∀ c, c ∈ cat_keys →
        (min r (size c) ≤ taken idx' c ≤ min (S r) (size c))%nat.
Proof.
  intros H0 Hz.
  destruct (rr_loop_invariant articles by_cat cat_keys max_count by_cat_groups
    (λ sel idx, rr_inv articles max_count sel idx
      ∧ ∃ r, (∀ c, c ∈ cat_keys →
                (min r (size c) ≤ taken idx c ≤ min (S r) (size c))%nat)
             ∧ (Z.of_nat (length sel) < max_count →
                ∀ c, c ∈ cat_keys → taken idx c = min r (size c))))
    with (sel := @nil article) (idx := idx) as (idx' & [Hinv (r & Hr & _)] & _).
  - intros sel idx0 [Hinv (r & _ & Hexact)] Hlt. split.
    { by apply (rr_sweep_inv articles by_cat cat_keys max_count by_cat_groups). }
    destruct (rr_sweep_round cat_keys (RRState sel idx0 false) r cat_keys_NoDup
                (Hexact Hlt)) as [Hbounds Hnext].
    fold (rr_sweep by_cat cat_keys max_count sel idx0) in Hbounds, Hnext.
    destruct (decide (Z.of_nat (length (selected
                (rr_sweep by_cat cat_keys max_count sel idx0))) < max_count))
      as [Hroom|Hfull].
    + exists (S r). split; [|done].
      intros c Hc. rewrite (Hnext Hroom c Hc). lia.
    + exists r. split; [done|]. intros ?. done.
  - split; [by apply rr_inv_init|]. exists 0%nat.
    split; [|intros _]; intros c _; rewrite Hz; lia.
  - eauto.
Qed.

End RoundRobinBalance.

(** The loop of the selector on the groups of its input ends in a state of
    the invariant. *)
Lemma select_top_articles_inv articles max_count :
  0 ≤ max_count → max_count < Z.of_nat (length articles) →
  ∃ idx r,
    rr_inv articles max_count (select_top_articles articles max_count) idx
    ∧ ∀ c, group c articles ≠ [] →
        (min r (length (group c articles)) ≤ taken idx c
         ≤ min (S r) (length (group c articles)))%nat.
Proof.
  intros H0 Hlen. rewrite select_top_articles_above by done.
  destruct (group_by_category_spec articles) as (Hgrp & Hkeys & Hnd & _).
  destruct (rr_loop_balanced articles _ _ max_count Hgrp Hnd
              ((λ _, 0%nat) <$> (group_by_category articles).1) H0)
    as (idx & r & Hinv & Hbal); [apply taken_zero|].
  exists idx, r. split; [done|]. intros c Hc. by apply Hbal, Hkeys.
Qed.

Lemma select_top_articles_negative articles max_count :
  max_count < 0 → select_top_articles articles max_count = [].
Proof.
  intros Hneg. rewrite select_top_articles_above by lia.
  rewrite rr_loop_eq. by rewrite decide_False by (simpl; lia).
Qed.

Lemma selection_from_input_aux (articles : list article) (max_count : Z) :
  let out := select_top_articles articles max_count in
  out ⊆+ articles
  ∧ ∀ c, ∃ n, group c out = take n (group c articles).
Proof.
  intros out.
  assert (∀ c, ∃ n, group c out = take n (group c articles)) as Hprefix.
  { subst out. intros c.
    destruct (decide (Z.of_nat (length articles) ≤ max_count)) as [Hle|Hgt].
    - unfold select_top_articles. rewrite decide_True by done.
      exists (length articles). rewrite take_ge; [done|]. apply length_filter.
    - destruct (decide (max_count < 0)) as [Hneg|Hpos].
      + rewrite select_top_articles_negative by done. by exists 0%nat.
      + destruct (select_top_articles_inv articles max_count)
          as (idx & _ & [Hsel _] & _); [lia..|]. eauto. }
  split; [|done]. apply submseteq_by_category. intros c.
  destruct (Hprefix c) as [n ->]. apply sublist_submseteq, sublist_take.
Qed.

(** X6. For every input and every [max_count], the selection is drawn
    from the input: it is a sub-multiset of it, and its articles of any
    category are the first ones of that category in the input, in order. *)
Theorem selection_from_input (articles : list article) (max_count : Z) :
  let out := select_top_articles articles max_count in
  out ⊆+ articles
  ∧ ∀ c, ∃ n, group c out = take n (group c articles).
Proof. apply selection_from_input_aux. Qed.

(** X7. Balance of the round-robin: for every input and every
    [max_count], if the selection holds at least two more articles of a
    category than of another, then every article of the other category is
    selected. *)
Theorem round_robin_balance (articles : list article) (max_count : Z)
    (c1 c2 : string) :
  let out := select_top_articles articles max_count in
  (length (group c2 out) + 2 ≤ length (group c1 out))%nat →
  group c2 out = group c2 articles.
Proof.
  intros out Hgap. subst out.
  destruct (decide (Z.of_nat (length articles) ≤ max_count)) as [Hle|Hgt].
  { unfold select_top_articles. by rewrite decide_True. }
  destruct (decide (max_count < 0)) as [Hneg|Hpos].
  { rewrite select_top_articles_negative in Hgap by done. simpl in Hgap. lia. }
  destruct (select_top_articles_inv articles max_count)
    as (idx & r & [Hsel _] & Hbal); [lia..|].
  rewrite !Hsel in Hgap. rewrite Hsel. rewrite !length_take in Hgap.
  destruct (decide (group c2 articles = [])) as [->|Hc2]; [by rewrite take_nil|].
  destruct (decide (group c1 articles = [])) as [Hc1|Hc1].
  { rewrite Hc1 in Hgap. simpl in Hgap. lia. }
  pose proof (Hbal c1 Hc1). pose proof (Hbal c2 Hc2).
  apply take_ge. lia.
Qed.

(** X8. With a single category the selection is a plain truncation. *)
Theorem single_category_truncation (articles : list article) (max_count : Z)
    (c : string) :
  (∀ a, a ∈ articles → get_category a = c) → 0 ≤ max_count →
  select_top_articles articles max_count = take (Z.to_nat max_count) articles.
Proof.
  intros Hcat H0.
  destruct (decide (Z.of_nat (length articles) ≤ max_count)) as [Hle|Hgt].
  { unfold select_top_articles. rewrite decide_True by done.
    rewrite take_ge; [done|lia]. }
  assert (group c articles = articles) as Hall by (by apply list_filter_True_all).
  destruct (selection_from_input_aux articles max_count) as [Hsub Hprefix].
  destruct (Hprefix c) as [n Hn]. rewrite Hall in Hn.
  assert (group c (select_top_articles articles max_count)
          = select_top_articles articles max_count) as Hout.
  { apply list_filter_True_all. intros a Ha. apply Hcat.
    by eapply elem_of_submseteq. }
  rewrite Hout in Hn.
  assert (Z.of_nat (length (select_top_articles articles max_count)) = max_count)
    as Hlen.
  { rewrite select_top_articles_above by lia.
    destruct (group_by_category_spec articles) as (Hgrp & Hkeys & _ & _).
    apply (rr_loop_length articles _ _ max_count Hgrp Hkeys); [lia|lia|].
    apply taken_zero. }
  rewrite Hn in Hlen |- *. rewrite length_take in Hlen. f_equal. lia.
Qed.

Lemma round_robin_balance_witness :
  group Samples.cat_c (select_top_articles Samples.thirteen 7)
  = group Samples.cat_c Samples.thirteen.
Proof.
  refine (round_robin_balance Samples.thirteen 7 Samples.cat_a Samples.cat_c _).
  vm_compute. lia.
Defined.

Lemma single_category_truncation_witness :
  select_top_articles
    [ Samples.art "s1" Samples.cat_b; Samples.art "s2" Samples.cat_b;
      Samples.art "s3" Samples.cat_b ] 2
  = [ Samples.art "s1" Samples.cat_b; Samples.art "s2" Samples.cat_b ].
Proof.
  refine (single_category_truncation _ 2 Samples.cat_b _ _).
  - intros a Ha.
    repeat (apply elem_of_cons in Ha as [->|Ha]; [reflexivity|]).
    by apply elem_of_nil in Ha.
  - lia.
Defined.

(** ** Classifier: the requests sent, and the text around the array *)

(** Whether a character occurs in a string. *)
Fixpoint occurs (c : ascii) (s : string) : bool :=
  match s with
  | EmptyString => false
  | String c' s' => Ascii.eqb c' c || occurs c s'
  end.

Lemma append_cons c (a b : string) : String c a +:+ b = String c (a +:+ b).
Proof. reflexivity. Qed.

Lemma append_nil (b : string) : "" +:+ b = b.
Proof. reflexivity. Qed.

Lemma append_assoc (a b c : string) : (a +:+ b) +:+ c = a +:+ (b +:+ c).
Proof.
  induction a as [|x a IH]; [done|]. by rewrite !append_cons, IH.
Qed.

Lemma after_open_skip pre s :
  occurs "["%char pre = false → after_open (pre +:+ String "["%char s) = Some s.
Proof.
  induction pre as [|c pre IH]; simpl.
  - done.
  - intros [Hc Hpre]%orb_false_iff. rewrite Hc. by apply IH.
Qed.

Lemma after_open_none s : occurs "["%char s = false → after_open s = None.
Proof.
  induction s as [|c s IH]; simpl; [done|].
  intros [Hc Hs]%orb_false_iff. rewrite Hc. by apply IH.
Qed.

Lemma upto_last_close_none s :
  occurs "]"%char s = false → upto_last_close s = None.
Proof.
  induction s as [|c s IH]; simpl; [done|].
  intros [Hc Hs]%orb_false_iff. by rewrite IH, Hc.
Qed.

Lemma upto_last_close_last body post :
  occurs "]"%char post = false →
  upto_last_close (body +:+ String "]"%char post) = Some (body +:+ "]").
Proof.
  intros Hpost. induction body as [|c body IH]; simpl.
  - by rewrite upto_last_close_none.
  - by rewrite IH.
Qed.

(** X9. The text around the array is ignored: when no ['['] comes before
    the array and no [']'] after it, [re.search] yields exactly the array,
    and the batch is classified as if the response were the array alone.
    Text with no ['['], or with no [']'] after the first ['['], yields no
    match, hence the fallback category for the whole batch. *)
Theorem array_extracted_from_prose
    (json_loads : string → option json) (pre body post : string)
    (batch : list article) :
  occurs "["%char pre = false → occurs "]"%char post = false →
  let array := "[" +:+ body +:+ "]" in
  re_search_array (pre +:+ array +:+ post) = Some array
  ∧ classify_batch json_loads (ApiText (pre +:+ array +:+ post)) batch
    = classify_batch json_loads (ApiText array) batch
  ∧ re_search_array pre = None
  ∧ re_search_array (pre +:+ "[" +:+ post) = None
  ∧ classify_batch json_loads (ApiText (pre +:+ "[" +:+ post)) batch
    = set_category FALLBACK <$> batch.
Proof.
  intros Hpre Hpost array.
  assert (∀ p, occurs "["%char p = false →
               re_search_array (p +:+ array +:+ post) = Some array) as Hfound.
  { intros p Hp. unfold re_search_array, array.
    rewrite !append_cons, !append_nil, append_assoc, append_cons, append_nil.
    rewrite after_open_skip by done. simpl.
    by rewrite upto_last_close_last. }
  assert (re_search_array array = Some array) as Hself.
  { unfold re_search_array, array. rewrite append_cons, append_nil. simpl.
    by rewrite (upto_last_close_last body ""). }
  assert (re_search_array (pre +:+ "[" +:+ post) = None) as Hnone.
  { unfold re_search_array. rewrite append_cons, append_nil.
    rewrite after_open_skip by done. simpl. by rewrite upto_last_close_none. }
  split; [by apply Hfound|]. split; [|split; [|split; [done|]]].
  - unfold classify_batch. by rewrite Hfound, Hself.
  - unfold re_search_array. by rewrite after_open_none.
  - unfold classify_batch. by rewrite Hnone.
Qed.

Lemma array_extracted_from_prose_witness :
  re_search_array ("Here you go: " +:+ ("[" +:+ "1, 2" +:+ "]") +:+ " done")
  = Some ("[" +:+ "1, 2" +:+ "]").
Proof.
  refine (proj1 (array_extracted_from_prose Samples.json_loads
            "Here you go: " "1, 2" " done" [] _ _)); reflexivity.
Defined.

Section ClassifierCalls.

Local Open Scope nat_scope.

Variable json_loads : string → option json.
Variable messages_create : nat → list article → api_response.

Abbreviation step := (classify_step json_loads messages_create).

(** The batches sent by the loop are the slices of the input. *)
Lemma classify_fold_calls articles m j acc :
  length acc.1 = length articles →
  drop (j * batch_size) acc.1 = drop (j * batch_size) articles →
  (j + m) * batch_size < length articles + batch_size →
  (foldl step acc ((λ k, k * batch_size) <$> seq j m)).2
  = acc.2 ++ ((λ k, batch_at (k * batch_size) articles) <$> seq j m).
Proof.
  revert j acc. induction m as [|m IH]; intros j acc Hlen Hdrop Hbound.
  - simpl. by rewrite app_nil_r.
  - cbn [seq]. rewrite !fmap_cons. cbn [foldl].
    assert (j * batch_size ≤ length acc.1) as Hj by (unfold batch_size in *; lia).
    destruct (classify_step_spec json_loads messages_create acc (j * batch_size) Hj)
      as (S1 & _ & S3 & _).
    rewrite IH.
    + cbn [classify_step snd]. rewrite <- app_assoc. simpl. do 2 f_equal.
      by apply batch_at_drop.
    + by rewrite S1.
    + replace (S j * batch_size) with (j * batch_size + batch_size) by lia.
      rewrite S3, <- !drop_drop. by rewrite Hdrop.
    + lia.
Qed.

Lemma concat_batches (l : list article) m j :
  concat ((λ k, batch_at (k * batch_size) l) <$> seq j m)
  = take (m * batch_size) (drop (j * batch_size) l).
Proof.
  revert j. induction m as [|m IH]; intros j; [done|].
  cbn [seq]. rewrite fmap_cons. cbn [concat]. rewrite IH.
  unfold batch_at at 1.
  replace (S j * batch_size) with (j * batch_size + batch_size) by lia.
  by rewrite <- drop_drop, take_take_drop.
Qed.

End ClassifierCalls.

(** X10. The requests of [classify_articles]: none without a key; with a
    key, one per slice of twenty, in order, so that the batches sent
    concatenate to the input, none is empty, none holds more than twenty
    articles, and their number is the input length divided by twenty,
    rounded up. *)
Theorem classifier_requests
    (json_loads : string → option json) (api_key : option string)
    (messages_create : nat → list article → api_response)
    (articles : list article) :
  let calls := (classify_articles json_loads api_key messages_create articles).2 in
  (api_key = None ∨ api_key = Some "" → calls = [])
  ∧ (∀ key, api_key = Some key → key ≠ "" →
       calls = (λ i, batch_at i articles) <$> range_step (length articles) batch_size
       ∧ concat calls = articles
       ∧ Forall (λ b, 1 ≤ length b ≤ 20)%nat calls
       ∧ length calls = ((length articles + 19) `div` 20)%nat).
Proof.
  intros calls. split.
  - intros Hkey. subst calls. by rewrite classify_articles_no_key.
  - intros key Hkey Hne. subst calls.
    set (m := ((length articles + batch_size - 1) `div` batch_size)%nat).
    assert (m * batch_size < length articles + batch_size
            ∧ length articles ≤ m * batch_size)%nat as [Hm1 Hm2].
    { subst m. unfold batch_size.
      pose proof (Nat.Div0.mul_div_le (length articles + 20 - 1) 20).
      pose proof (Nat.mul_succ_div_gt (length articles + 20 - 1) 20). lia. }
    assert ((classify_articles json_loads api_key messages_create articles).2
            = (λ k, batch_at (k * batch_size) articles) <$> seq 0 m) as Hcalls.
    { unfold classify_articles. rewrite Hkey. destruct key as [|c key]; [done|].
      unfold range_step. fold m.
      by rewrite (classify_fold_calls json_loads messages_create articles m 0
                    (articles, [])). }
    rewrite Hcalls. split; [|split; [|split]].
    + unfold range_step. fold m. by rewrite <- list_fmap_compose.
    + rewrite concat_batches. simpl. by rewrite take_ge.
    + apply Forall_fmap, Forall_forall. intros k [_ Hk]%elem_of_seq. simpl.
      rewrite batch_at_length. unfold batch_size in *.
      assert (k * 20 < length articles)%nat; [|lia].
      subst m. pose proof (Nat.Div0.mul_div_le (length articles + 20 - 1) 20). lia.
    + rewrite length_fmap, length_seq. subst m. unfold batch_size. f_equal. lia.
Qed.

Example requests_two_batches :
  length <$> (classify_articles Samples.json_loads (Some "key") Samples.service
                Samples.twenty_one).2
  = [20; 1]%nat.
Proof. vm_compute. reflexivity. Qed.

(** ** Archive store: what a load leaves, raises and returns *)

Section LoadLoopExtras.

Variable strptime : string → option Z.
Variable json_loads : string → option json.
Variable cutoff : Z.

Abbreviation loop := (load_loop strptime json_loads cutoff).

(** [expired], as a test. *)
Definition is_expired (path : string) : bool :=
  match strptime (stem path) with
  | Some d => bool_decide (midnight d < cutoff)
  | None => false
  end.

Lemma is_expired_spec path : is_expired path ↔ expired strptime cutoff path.
Proof.
  unfold is_expired, expired. destruct (strptime (stem path)) as [d|].
  - rewrite bool_decide_spec. split; [by exists d|]. by intros (? & [= <-] & ?).
  - split; [done|]. by intros (? & [=] & ?).
Qed.

(** The loop never adds a file and never changes one. *)
Lemma load_loop_sub paths dir acc : (loop paths dir acc).1 ⊆ dir.
Proof.
  revert dir acc. induction paths as [|path rest IH]; intros dir acc; [done|].
  rewrite load_loop_cons.
  destruct (strptime (stem path)) as [d|]; [|by apply IH].
  case_decide.
  - etrans; [apply IH|]. apply delete_subseteq.
  - destruct (dir !! path) as [text|]; [|done].
    destruct (json_loads text); [by apply IH|done].
Qed.


(** Run again on what it left, over the files it did not delete, the loop
    does the same. *)
Lemma load_loop_again paths dir acc dir' m :
  loop paths dir acc = (dir', Ok m) →
  loop (filter (λ p, ¬ is_expired p) paths) dir' acc = (dir', Ok m).
Proof.
  revert dir acc. induction paths as [|path rest IH]; intros dir acc Hrun.
  - simpl in *. by simplify_eq.
  - rewrite load_loop_cons in Hrun.
    destruct (strptime (stem path)) as [d|] eqn:Hd.
    2:{ rewrite filter_cons_True
          by (unfold is_expired; rewrite Hd; intros Hfalse; exact Hfalse).
        rewrite load_loop_cons, Hd. by eapply IH. }
    case_decide as Hexp.
    { rewrite filter_cons_False; [by eapply IH|].
      unfold is_expired. rewrite Hd. intros Hn. apply Hn. by apply bool_decide_pack. }
    rewrite filter_cons_True
      by (unfold is_expired; rewrite Hd; by intros ?%bool_decide_unpack).
    destruct (dir !! path) as [text|] eqn:Htext; [|done].
    destruct (json_loads text) as [v|] eqn:Hv; [|done].
    rewrite load_loop_cons, Hd, decide_False by done.
    assert (dir' !! path = Some text) as ->.
    { replace dir' with (loop rest dir (<[stem path:=v]> acc)).1 by (by rewrite Hrun).
      rewrite load_loop_dir; [done|]. intros [_ (d' & Hd' & ?)]. congruence. }
    rewrite Hv. by eapply IH.
Qed.

End LoadLoopExtras.

Lemma StronglySorted_filter {A} (R : relation A) (P : A → Prop)
    `{!∀ x, Decision (P x)} (l : list A) :
  StronglySorted R l → StronglySorted R (filter P l).
Proof.
  induction 1 as [|x l Hl IH Hx]; [constructor|].
  destruct (decide (P x)).
  - rewrite filter_cons_True by done. constructor; [done|].
    apply Forall_forall. intros y [_ Hy]%list_elem_of_filter.
    by eapply Forall_forall in Hx.
  - by rewrite filter_cons_False.
Qed.

Section LoadExtras.

Variable strptime : string → option Z.
Variable json_loads : string → option json.
Variable now : Z.

Abbreviation horizon := (now - timedelta_days KEEP_DAYS).
Abbreviation load := (load_recent_articles strptime json_loads now).


(** X12. Every key of the returned mapping parses as a date within the
    horizon, and its value is the parsed text of a file with that stem,
    which the load leaves in place. *)
Theorem load_keys_are_dates (dir : gmap string string) (m : gmap string json)
    (key : string) (v : json) :
  (load dir).2 = Ok m → m !! key = Some v →
  ∃ d name text,
    strptime key = Some d ∧ ¬ midnight d < horizon
    ∧ is_json name ∧ stem name = key
    ∧ dir !! name = Some text ∧ json_loads text = Some v
    ∧ (load dir).1 !! name = Some text.
Proof.
  intros Hok Hm.
  destruct (load_loop_sound _ _ _ _ _ _ _ _ _ Hok Hm)
    as [Hacc|(p & text & [? ?]%glob_json_elem & (d & Hd & Hkept) & Hstem & Ht & Hv)];
    [done|].
  exists d, p, text. rewrite <- Hstem. repeat split; try done.
  rewrite load_dir_other; [done|]. intros (_ & _ & d' & Hd' & ?). congruence.
Qed.

Lemma load_sub dir : (load dir).1 ⊆ dir.
Proof. apply load_loop_sub. Qed.

(** X13. A load only deletes: what it leaves is a part of the directory
    with the same texts, and every file that is gone is an expired
    date-file matching [*.json]; this holds also when it raises. *)
Theorem load_only_deletes (dir : gmap string string) :
  (load dir).1 ⊆ dir
  ∧ ∀ name, (load dir).1 !! name ≠ dir !! name →
      (load dir).1 !! name = None ∧ is_json name
      ∧ ∃ d, strptime (stem name) = Some d ∧ midnight d < horizon.
Proof.
  split; [apply load_sub|]. intros name Hdiff.
  destruct (decide (is_json name ∧ is_Some (dir !! name)
                    ∧ is_expired strptime horizon name)) as [(? & ? & Hexp)|Hno].
  - apply is_expired_spec in Hexp. split; [|done].
    destruct ((load dir).1 !! name) as [text|] eqn:Hl; [|done].
    exfalso. apply Hdiff. symmetry.
    by eapply lookup_weaken; [|apply load_sub].
  - exfalso. apply Hdiff, load_dir_other.
    intros (? & ? & ?%is_expired_spec). by apply Hno.
Qed.

Lemma glob_json_after_load dir m :
  (load dir).2 = Ok m →
  glob_json (load dir).1
  = filter (λ p, ¬ is_expired strptime horizon p) (glob_json dir).
Proof.
  intros Hok.
  apply (Sorted_unique String.le).
  - apply Sorted_merge_sort. apply _.
  - apply StronglySorted_Sorted, StronglySorted_filter.
    apply StronglySorted_merge_sort; apply _.
  - apply NoDup_Permutation.
    + apply glob_json_NoDup.
    + apply NoDup_filter, glob_json_NoDup.
    + intros p. rewrite list_elem_of_filter, !glob_json_elem. split.
      * intros [Hjson [text Hp]].
        assert (dir !! p = Some text) as Hdir
          by (by eapply lookup_weaken; [|apply load_sub]).
        split; [|by eauto].
        intros Hexp%is_expired_spec.
        assert ((load dir).1 !! p = None) as Hgone; [|congruence].
        eapply load_loop_deleted; [done| |done]. apply glob_json_elem. eauto.
      * intros (Hexp & Hjson & Hp). split; [done|].
        rewrite load_dir_other; [done|].
        intros (_ & _ & ?%is_expired_spec). done.
Qed.

(** X14. Loading again at the same instant changes nothing: the second
    load deletes no file and returns the same mapping. *)
Theorem load_idempotent (dir dir' : gmap string string) (m : gmap string json) :
  load dir = (dir', Ok m) → load dir' = (dir', Ok m).
Proof.
  intros Hload.
  assert ((load dir).1 = dir' ∧ (load dir).2 = Ok m) as [Hdir Hok]
    by (by rewrite Hload).
  assert (glob_json dir'
          = filter (λ p, ¬ is_expired strptime horizon p) (glob_json dir)) as Hglob.
  { rewrite <- Hdir. by apply (glob_json_after_load dir m). }
  unfold load_recent_articles. rewrite Hglob.
  by apply (load_loop_again _ _ _ _ dir).
Qed.

(** X15. The retention boundary: when the load returns, a date-file dated
    six days ago or later, also one dated in the future, stays; one dated
    eight days ago or earlier is deleted; one dated seven days ago is
    deleted unless [now] is midnight sharp. *)
Theorem retention_boundary (dir dir' : gmap string string) (m : gmap string json)
    (name : string) (d : Z) :
  load dir = (dir', Ok m) →
  is_Some (dir !! name) → is_json name → strptime (stem name) = Some d →
  (to_date now - 6 ≤ d → dir' !! name = dir !! name)
  ∧ (d ≤ to_date now - 8 → dir' !! name = None)
  ∧ (d = to_date now - 7 →
     (dir' !! name = None ↔ midnight (to_date now) < now)).
Proof.
  intros Hload Hname Hjson Hd.
  assert ((load dir).1 = dir' ∧ (load dir).2 = Ok m) as [Hdir Hok]
    by (by rewrite Hload).
  pose proof (midnight_to_date now) as Hnow.
  assert (midnight d = midnight (to_date now) - timedelta_days (to_date now - d))
    as Hmid by (unfold midnight, timedelta_days; lia).
  assert (midnight d < horizon → dir' !! name = None) as Hdel.
  { intros Hexp. rewrite <- Hdir.
    eapply load_loop_deleted; [done|by apply glob_json_elem|by exists d]. }
  assert (¬ midnight d < horizon → dir' !! name = dir !! name) as Hkeep.
  { intros Hkept. rewrite <- Hdir. apply load_dir_other.
    intros (_ & _ & d' & Hd' & ?). congruence. }
  unfold timedelta_days, KEEP_DAYS, DAY_US in *.
  split; [|split].
  - intros ?. apply Hkeep. lia.
  - intros ?. apply Hdel. lia.
  - intros ->. split.
    + intros Hnone. destruct (decide (midnight (to_date now) < now)); [done|].
      rewrite Hkeep in Hnone by lia. destruct Hname as [? Hn]. congruence.
    + intros ?. apply Hdel. lia.
Qed.

End LoadExtras.

(** ** File names *)

Lemma length_append (a b : string) :
  String.length (a +:+ b) = (String.length a + String.length b)%nat.
Proof.
  induction a as [|c a IH]; [done|]. rewrite append_cons. simpl. by rewrite IH.
Qed.

Lemma substring_append_r (a b : string) n :
  String.substring (String.length a) n (a +:+ b) = String.substring 0 n b.
Proof. induction a as [|c a IH]; [done|]. rewrite append_cons. simpl. done. Qed.

Lemma substring_append_l (a b : string) :
  String.substring 0 (String.length a) (a +:+ b) = a.
Proof.
  induction a as [|c a IH]; [by destruct b|]. rewrite append_cons. simpl.
  by rewrite IH.
Qed.

Lemma substring_split (s : string) k :
  (k ≤ String.length s)%nat →
  String.substring 0 k s +:+ String.substring k (String.length s - k) s = s.
Proof.
  revert k. induction s as [|c s IH]; intros k Hk; simpl in Hk.
  - by destruct k.
  - destruct k as [|k].
    + rewrite append_nil. simpl. f_equal.
      specialize (IH 0%nat ltac:(lia)).
      replace (String.length s - 0)%nat with (String.length s) in IH by lia.
      destruct s; [done|]. by rewrite append_nil in IH.
    + simpl. rewrite append_cons. f_equal. apply IH. lia.
Qed.

Lemma is_json_append (s : string) : is_json (s +:+ JSON_SUFFIX) = true.
Proof.
  unfold is_json. rewrite length_append. simpl String.length.
  replace (String.length s + 5 - 5)%nat with (String.length s) by lia.
  rewrite substring_append_r. apply andb_true_iff. split; [|done].
  apply Nat.leb_le. lia.
Qed.

Lemma stem_append (s : string) : s ≠ "" → stem (s +:+ JSON_SUFFIX) = s.
Proof.
  intros Hs. unfold stem.
  assert (String.eqb (s +:+ JSON_SUFFIX) JSON_SUFFIX = false) as ->.
  { apply String.eqb_neq. intros Heq.
    apply (f_equal String.length) in Heq. rewrite length_append in Heq.
    destruct s; [done|]. simpl in Heq. lia. }
  rewrite length_append. simpl String.length.
  replace (String.length s + 5 - 5)%nat with (String.length s) by lia.
  apply substring_append_l.
Qed.

(** The name of a listed file follows from its stem, but for the stem of
    [.json] itself. *)
Lemma stem_name (name key : string) :
  is_json name → stem name = key → key ≠ "" → key ≠ JSON_SUFFIX →
  name = key +:+ JSON_SUFFIX.
Proof.
  intros Hjson Hstem Hne1 Hne2. unfold stem in Hstem.
  destruct (String.eqb name JSON_SUFFIX) eqn:Heq.
  { apply String.eqb_eq in Heq. congruence. }
  unfold is_json in Hjson. apply Is_true_true, andb_true_iff in Hjson as [Hlen Hsuf].
  apply Nat.leb_le in Hlen. apply String.eqb_eq in Hsuf.
  rewrite <- Hstem, <- Hsuf at 1.
  rewrite <- (substring_split name (String.length name - 5)) at 1 by lia.
  do 2 f_equal. lia.
Qed.

(** X16. Persist, then load: [save_articles] replaces whatever the date
    had and touches no other file; a following load leaves the file in
    place and, when it returns, maps the date to the saved text as parsed. *)
Theorem save_then_load
    (strptime : string → option Z) (json_loads : string → option json)
    (json_dumps : list article → string) (now : Z)
    (dir : gmap string string) (articles : list article)
    (date_str : string) (d : Z) (v : json) :
  date_str ≠ "" → date_str ≠ JSON_SUFFIX →
  strptime date_str = Some d → ¬ midnight d < now - timedelta_days KEEP_DAYS →
  json_loads (json_dumps articles) = Some v →
  let saved := save_articles json_dumps articles date_str dir in
  let name := date_str +:+ JSON_SUFFIX in
  (∀ previous,
     save_articles json_dumps articles date_str
       (save_articles json_dumps previous date_str dir) = saved)
  ∧ (∀ other, other ≠ name → saved !! other = dir !! other)
  ∧ (load_recent_articles strptime json_loads now saved).1 !! name
    = Some (json_dumps articles)
  ∧ ∀ m, (load_recent_articles strptime json_loads now saved).2 = Ok m →
         m !! date_str = Some v.
Proof.
  intros Hne1 Hne2 Hd Hkept Hv saved name.
  assert (saved !! name = Some (json_dumps articles)) as Hsaved
    by apply lookup_insert_eq.
  assert (stem name = date_str) as Hstem by (by apply stem_append).
  split; [|split; [|split]].
  - intros previous. apply insert_insert_eq.
  - intros other Hother. by apply lookup_insert_ne.
  - rewrite load_dir_other; [done|].
    intros (_ & _ & d' & Hd' & ?). rewrite Hstem in Hd'. congruence.
  - intros m Hok.
    destruct (load_loop_complete _ _ _ _ _ _ _ name Hok)
      as (text & v' & Ht & Hv' & Hm).
    + apply glob_json_NoDup.
    + apply glob_json_elem. split; [|by eauto].
      apply Is_true_true, is_json_append.
    + exists d. by rewrite Hstem.
    + intros p' [Hjson _]%glob_json_elem Hp'. rewrite Hstem in Hp'.
      by apply stem_name.
    + rewrite Hstem in Hm. congruence.
Qed.

(** ** The run: what is published *)

(** The classified list is the input with a category of the list set on
    each article. *)
Lemma classify_articles_positions
    (json_loads : string → option json) (api_key : option string)
    (messages_create : nat → list article → api_response)
    (articles : list article) :
  let out := (classify_articles json_loads api_key messages_create articles).1 in
  length out = length articles
  ∧ ∀ p a, articles !! p = Some a →
      ∃ c, out !! p = Some (set_category c a) ∧ c ∈ CATEGORIES.
Proof.
  intros out. subst out.
  assert (api_key = None ∨ api_key = Some ""
          ∨ ∃ key, api_key = Some key ∧ key ≠ "") as [Hkey|[Hkey|(key & Hkey & Hne)]].
  { destruct api_key as [[|ch key]|]; eauto 6. }
  1, 2: rewrite classify_articles_no_key by auto; simpl; split;
    [ unfold fallback_all; by rewrite length_fmap
    | intros p a Hp; exists FALLBACK; split; [|apply FALLBACK_in_CATEGORIES];
      unfold fallback_all; by rewrite list_lookup_fmap, Hp ].
  pose proof (classify_articles_slice json_loads api_key messages_create
                key articles) as Hslice.
  split.
  - destruct articles as [|a0 rest] eqn:Ha.
    + unfold classify_articles. rewrite Hkey. by destruct key.
    + rewrite <- Ha in *. apply (Hslice 0%nat); [done..|].
      apply range_step_elem. exists 0%nat. rewrite Ha. simpl. split; lia.
  - intros p a Hp.
    pose proof (lookup_lt_Some _ _ _ Hp) as Hlt.
    pose proof (Nat.div_mod_eq p batch_size) as Hdm.
    pose proof (Nat.mod_upper_bound p batch_size) as Hmod.
    set (k := (p `div` batch_size)%nat) in *.
    set (q := (p `mod` batch_size)%nat) in *.
    assert (q < batch_size)%nat as Hq by (apply Hmod; done).
    assert (k * batch_size + q = p)%nat as Hp' by lia. clearbody k q.
    destruct (Hslice (k * batch_size)%nat) as [_ Hsl]; [done..| |].
    { apply range_step_elem. exists k. split; [done|]. lia. }
    destruct (classify_batch_lookup json_loads
                (messages_create (k * batch_size)%nat
                   (batch_at (k * batch_size) articles))
                (batch_at (k * batch_size) articles) q a) as (c & Hc & Hin).
    { rewrite batch_at_lookup by done. by rewrite Hp'. }
    exists c. split; [|done]. rewrite <- Hc, <- Hsl.
    rewrite batch_at_lookup by done. by rewrite Hp'.
Qed.

Lemma select_top_articles_length (articles : list article) (max_count : Z) :
  0 ≤ max_count →
  Z.of_nat (length (select_top_articles articles max_count))
  = Z.min max_count (Z.of_nat (length articles)).
Proof.
  intros H0. destruct (decide (Z.of_nat (length articles) ≤ max_count)) as [Hle|Hgt].
  - unfold select_top_articles. rewrite decide_True by done. lia.
  - rewrite select_top_articles_above by lia.
    destruct (group_by_category_spec articles) as (Hgrp & Hkeys & _ & _).
    rewrite (rr_loop_length articles _ _ max_count Hgrp Hkeys); [lia|lia|lia|].
    apply taken_zero.
Qed.

(** The articles a run publishes, from what it collected. *)
Definition published
    (json_loads : string → option json) (api_key : option string)
    (messages_create : nat → list article → api_response)
    (articles : list article) : list article :=
  select_top_articles
    (classify_articles json_loads api_key messages_create articles).1 15.

(** X17. Collect, classify, select: the articles a run publishes are at
    most fifteen, have pairwise distinct URLs, and each is a collected
    article with a category of the fixed list set on it. *)
Theorem published_selection
    (strptime : string → option Z) (strftime : Z → string)
    (fetch : source_desc → list article)
    (json_loads : string → option json) (api_key : option string)
    (messages_create : nat → list article → api_response)
    (now : Z) (sources : list source_desc) (articles : list article) :
  collect_articles strptime strftime fetch now sources = Ok articles →
  let sel := published json_loads api_key messages_create articles in
  (length sel ≤ 15)%nat
  ∧ length sel = min 15 (length articles)
  ∧ NoDup (url <$> sel)
  ∧ ∀ b, b ∈ sel →
      ∃ a c, a ∈ articles ∧ c ∈ CATEGORIES ∧ b = set_category c a.
Proof.
  intros Hcollect sel. subst sel. unfold published.
  set (classified := (classify_articles json_loads api_key messages_create articles).1).
  destruct (classify_articles_positions json_loads api_key messages_create articles)
    as [Hlen Hpos]. fold classified in Hlen, Hpos.
  pose proof (select_top_articles_length classified 15 ltac:(lia)) as Hsel.
  destruct (selection_from_input_aux classified 15) as [Hsub _].
  assert (∀ b, b ∈ classified →
            ∃ a c, a ∈ articles ∧ c ∈ CATEGORIES ∧ b = set_category c a) as Hfrom.
  { intros b [p Hp]%list_elem_of_lookup.
    destruct (articles !! p) as [a|] eqn:Ha.
    - destruct (Hpos p a Ha) as (c & Hc & ?). exists a, c.
      split; [by eapply list_elem_of_lookup_2|]. split; [done|]. congruence.
    - apply lookup_lt_Some in Hp. apply lookup_ge_None in Ha. lia. }
  assert (url <$> classified = url <$> articles) as Hurls.
  { apply list_eq. intros p. rewrite !list_lookup_fmap.
    destruct (articles !! p) as [a|] eqn:Ha.
    - destruct (Hpos p a Ha) as (c & -> & _). done.
    - apply lookup_ge_None in Ha.
      rewrite (proj2 (lookup_ge_None classified p)) by lia. done. }
  split; [lia|]. split; [lia|]. split.
  - pose proof Hsub as Hsub'.
    apply (fmap_submseteq url), submseteq_Permutation in Hsub' as [k Hk].
    unfold collect_articles in Hcollect.
    apply filter_output_unique_aux in Hcollect as [Hnd _].
    rewrite <- Hurls, Hk in Hnd. by apply NoDup_app in Hnd as [? _].
  - intros b Hb. apply Hfrom. by eapply elem_of_submseteq.
Qed.


(** X19. A run whose collection raises has no effect: when fewer than five
    fetched articles fall in the primary window and one fetched article
    carries a date that does not parse, [main] ends in [ValueError] with
    nothing sent to the classifier, no file written or deleted and the
    output as it was. *)
Theorem main_fails_early
    (strptime : string → option Z) (strftime : Z → string)
    (json_loads : string → option json) (json_dumps : list article → string)
    (fetch : source_desc → list article) (api_key : option string)
    (messages_create : nat → list article → api_response)
    (generate_html : gmap string json → string → string) (stamp : Z → string)
    (now : Z) (w : world) (sources : list source_desc) (a : article) :
  sources_file w = Ok sources →
  strptime (strftime (to_date now - 3)) = Some (to_date now - 3) →
  (length (primary_window strftime now (sources ≫= fetch)) < 5)%nat →
  a ∈ sources ≫= fetch → strptime (date a) = None →
  main strptime strftime json_loads json_dumps fetch api_key
    messages_create generate_html stamp now w
  = (w, Raise ValueError).
Proof.
  intros Hsrc Hclock Hlt Ha Hbad. unfold main. rewrite Hsrc.
  unfold collect_articles, recency_dedup_filter.
  rewrite (recent_window_escalation _ _ _ _ (to_date now - 3)) by done.
  by rewrite (since_raise _ _ _ a).
Qed.

(** ** The further properties at concrete inputs *)

Lemma load_keys_are_dates_witness :
  ∃ d name text,
    Calendar.strptime_ymd "2024-02-25" = Some d
    ∧ ¬ midnight d < Samples.now0 - timedelta_days KEEP_DAYS
    ∧ is_json name ∧ stem name = "2024-02-25"
    ∧ Samples.archive0 !! name = Some text
    ∧ Samples.json_loads text = Some (JArray [JString "six days ago"])
    ∧ (load_recent_articles Calendar.strptime_ymd Samples.json_loads Samples.now0
         Samples.archive0).1 !! name = Some text.
Proof.
  refine (load_keys_are_dates Calendar.strptime_ymd Samples.json_loads Samples.now0
            Samples.archive0
            (<["2024-03-02" := JArray [JString "today"]]>
               {["2024-02-25" := JArray [JString "six days ago"]]})
            "2024-02-25" (JArray [JString "six days ago"]) _ _).
  - vm_compute. reflexivity.
  - vm_compute. reflexivity.
Defined.

Lemma load_idempotent_witness :
  load_recent_articles Calendar.strptime_ymd Samples.json_loads Samples.now0
    (delete "2024-02-23.json" Samples.archive0)
  = (delete "2024-02-23.json" Samples.archive0,
     Ok (<["2024-03-02" := JArray [JString "today"]]>
           {["2024-02-25" := JArray [JString "six days ago"]]})).
Proof.
  refine (load_idempotent Calendar.strptime_ymd Samples.json_loads Samples.now0
            Samples.archive0 _ _ _).
  vm_compute. reflexivity.
Defined.

Lemma retention_boundary_witness :
  delete "2024-02-23.json" Samples.archive0 !! "2024-02-25.json"
  = Samples.archive0 !! "2024-02-25.json".
Proof.
  refine (proj1 (retention_boundary Calendar.strptime_ymd Samples.json_loads
            Samples.now0 Samples.archive0 (delete "2024-02-23.json" Samples.archive0)
            (<["2024-03-02" := JArray [JString "today"]]>
               {["2024-02-25" := JArray [JString "six days ago"]]})
            "2024-02-25.json" 738941 _ _ _ _) _).
  - vm_compute. reflexivity.
  - vm_compute. eauto.
  - vm_compute. exact I.
  - vm_compute. reflexivity.
  - vm_compute. discriminate.
Defined.

Lemma save_then_load_witness :
  (load_recent_articles Calendar.strptime_ymd Samples.json_loads Samples.now0
     (save_articles (λ _, "[]") Samples.sparse_feed "2024-03-02" Samples.archive0)).1
    !! ("2024-03-02" +:+ JSON_SUFFIX)
  = Some "[]".
Proof.
  refine (proj1 (proj2 (proj2 (save_then_load Calendar.strptime_ymd
            Samples.json_loads (λ _, "[]") Samples.now0 Samples.archive0
            Samples.sparse_feed "2024-03-02" 738947 (JArray []) _ _ _ _ _)))).
  - discriminate.
  - discriminate.
  - vm_compute. reflexivity.
  - vm_compute. discriminate.
  - vm_compute. reflexivity.
Defined.

Lemma published_selection_witness :
  length (published Samples.json_loads (Some "key") Samples.service
            Samples.twenty_one)
  = min 15 (length Samples.twenty_one).
Proof.
  refine (proj1 (proj2 (published_selection Calendar.strptime_ymd
            Calendar.strftime_ymd (λ _, Samples.twenty_one) Samples.json_loads
            (Some "key") Samples.service Samples.now0
            [Source "feed" "https://example.org/rss" "en"] Samples.twenty_one _))).
  vm_compute. reflexivity.
Defined.


Lemma main_fails_early_witness :
  main Calendar.strptime_ymd Calendar.strftime_ymd Samples.json_loads (λ _, "[]")
    (λ _, Samples.sparse_feed ++ [Samples.mk "x" "2024/03/02" None])
    (Some "key") Samples.service (λ _ _, "<html></html>") (λ _, "stamp")
    Samples.now0 Samples.world0
  = (Samples.world0, Raise ValueError).
Proof.
  refine (main_fails_early Calendar.strptime_ymd Calendar.strftime_ymd
            Samples.json_loads (λ _, "[]")
            (λ _, Samples.sparse_feed ++ [Samples.mk "x" "2024/03/02" None])
            (Some "key") Samples.service (λ _ _, "<html></html>") (λ _, "stamp")
            Samples.now0 Samples.world0
            [Source "feed" "https://example.org/rss" "en"]
            (Samples.mk "x" "2024/03/02" None) _ _ _ _ _).
  - reflexivity.
  - vm_compute. reflexivity.
  - vm_compute. lia.
  - apply list_elem_of_bind. eexists. split; [|left].
    apply elem_of_app. right. left.
  - vm_compute. reflexivity.
Defined.
